(** * xrpl-py-tui: connection supervisor, subscription tracker, state store

    A shallow embedding of [state/models.py], [state/store.py],
    [xrp_amount.py], [xrpl_client/connection.py] and
    [xrpl_client/subscriptions.py], followed by the properties that the
    specification states about them.

    Conventions of the embedding.
    - Python [int] is [Z]; [str] is [string]; [dict] is stdpp's [gmap];
      [set] is [gset]; [list] is [list].
    - [datetime.now()] is read from the environment: every operation that
      calls it takes the clock reading as an extra argument [now].
    - Dataclass instances held in a list are modelled by value.  The store
      creates a fresh instance for every record it adds and never puts one
      instance in two places, so an in-place mutation of the instance found
      at position [i] of a list is the replacement of position [i].
    - The coroutines of the client package run in a state and exception
      monad over the manager, the tracker, the world of the callbacks and
      a log of the effects on the outside (transport opened, request sent,
      sleep).  What the outside does in return (a transport that opens or
      not, the frames read, how a connection ends, a [disconnect()] from
      another task) is the script that the supervisor loop is run on.
    - Exceptions are instances of Python's [Exception], the class that the
      [except] clauses of the sources catch; task cancellation and
      interpreter exit are not modelled. *)

From stdpp Require Import gmap strings list fin_maps pretty.
From Stdlib Require Import ZArith Lia.

Open Scope Z_scope.

(** ** Python built-ins used by the sources *)

Module Py.

(** [len(l)] *)
Definition len {A} (l : list A) : Z := Z.of_nat (length l).

(** [l[:n]]: a negative bound counts from the end. *)
Definition slice_to {A} (l : list A) (n : Z) : list A :=
  if 0 <=? n then take (Z.to_nat n) l
  else take (Z.to_nat (len l + n)) l.

(** [l.remove(v)]: deletes the first element equal to [v]; [None] stands
    for the [ValueError] raised when there is none. *)
Fixpoint remove `{EqDecision A} (l : list A) (v : A) : option (list A) :=
  match l with
  | [] => None
  | x :: r => if decide (x = v) then Some r else cons x <$> remove r v
  end.

(** [for x in l: if p(x): ...; return]: position and value of the first
    element on which the test of the loop body succeeds. *)
Fixpoint first_match {A} (p : A → bool) (l : list A) (i : nat)
  : option (nat * A) :=
  match l with
  | [] => None
  | x :: r => if p x then Some (i, x) else first_match p r (S i)
  end.

End Py.

(** ** xrp_amount.py *)

Record XRP := { _drops : Z }.

Definition DROPS_PER_XRP : Z := 1000000.

Definition from_drops (amount : Z) : XRP := {| _drops := amount |}.
Definition drops (self : XRP) : Z := _drops self.

(** [__add__], [__sub__] *)
Definition xrp_add (self other : XRP) : XRP := from_drops (drops self + drops other).
Definition xrp_sub (self other : XRP) : XRP := from_drops (drops self - drops other).

(** [__eq__] and the comparisons, all on the drop count. *)
Definition xrp_eq (self other : XRP) : bool := drops self =? drops other.
Definition xrp_lt (self other : XRP) : bool := drops self <? drops other.
Definition xrp_le (self other : XRP) : bool := drops self <=? drops other.

#[global] Instance XRP_eq_dec : EqDecision XRP.
Proof. solve_decision. Defined.

(** ** state/models.py *)

Inductive TransactionStatus := PENDING | VALIDATED | FAILED.

#[global] Instance TransactionStatus_eq_dec : EqDecision TransactionStatus.
Proof. solve_decision. Defined.

Inductive WalletSource := FAUCET | IMPORTED.

Module WalletInfo.
(** The [Wallet] of xrpl-py is kept by its address; the store never looks
    inside. *)
Record t := mk {
  wallet : string;
  source : WalletSource;
  label : string;
  created_at : Z
}.
Definition address (self : t) : string := wallet self.
End WalletInfo.

Record AccountState := {
  address : string;
  balance : XRP;
  previous_balance : option XRP;
  sequence : Z;
  last_updated : Z
}.

(** [AccountState(address=..., balance=...)] with the dataclass defaults. *)
Definition new_AccountState (addr : string) (bal : XRP) (now : Z) : AccountState :=
  {| address := addr; balance := bal; previous_balance := None;
     sequence := 0; last_updated := now |}.

(** [AccountState.balance_change] *)
Definition balance_change (self : AccountState) : option XRP :=
  match previous_balance self with
  | None => None
  | Some prev => Some (xrp_sub (balance self) prev)
  end.

(** [AccountState.update_balance] *)
Definition update_balance (self : AccountState) (new_balance : XRP) (now : Z)
  : AccountState :=
  {| address := address self;
     balance := new_balance;
     previous_balance := Some (balance self);
     sequence := sequence self;
     last_updated := now |}.

Record TransactionState := {
  tx_hash : string;
  tx_type : string;
  status : TransactionStatus;
  amount : option XRP;
  source : string;
  destination : string;
  fee : option XRP;
  ledger_index : option Z;
  timestamp : Z;
  error_message : option string
}.

(** The dataclass [__eq__] compares all fields, which on this record is
    Leibniz equality. *)
#[global] Instance TransactionState_eq_dec : EqDecision TransactionState.
Proof. solve_decision. Defined.

Definition is_validated (self : TransactionState) : bool :=
  bool_decide (status self = VALIDATED).
Definition is_pending (self : TransactionState) : bool :=
  bool_decide (status self = PENDING).

(** [TransactionState.mark_validated] *)
Definition mark_validated (self : TransactionState) (idx : Z) : TransactionState :=
  {| tx_hash := tx_hash self; tx_type := tx_type self;
     status := VALIDATED;
     amount := amount self; source := source self;
     destination := destination self; fee := fee self;
     ledger_index := Some idx;
     timestamp := timestamp self; error_message := error_message self |}.

(** [TransactionState.mark_failed] *)
Definition mark_failed (self : TransactionState) (error : string) : TransactionState :=
  {| tx_hash := tx_hash self; tx_type := tx_type self;
     status := FAILED;
     amount := amount self; source := source self;
     destination := destination self; fee := fee self;
     ledger_index := ledger_index self;
     timestamp := timestamp self; error_message := Some error |}.

Module LedgerState.
Record t := mk {
  ledger_index : Z;
  ledger_hash : string;
  close_time : option Z;
  txn_count : Z;
  reserve_base : XRP;
  reserve_increment : XRP
}.
(** [LedgerState()]: reserves of 10 and 2 XRP. *)
Definition default : t :=
  mk 0 "" None 0 (from_drops (10 * DROPS_PER_XRP)) (from_drops (2 * DROPS_PER_XRP)).
End LedgerState.

(** ** state/store.py *)

Record XRPLStateStore := {
  connection_status : string;
  ledger : LedgerState.t;
  wallets : gmap string WalletInfo.t;
  accounts : gmap string AccountState;
  recent_transactions : list TransactionState;
  pending_transactions : list TransactionState;
  max_recent_transactions : Z
}.

(** [XRPLStateStore()] *)
Definition new_store : XRPLStateStore :=
  {| connection_status := "disconnected";
     ledger := LedgerState.default;
     wallets := ∅; accounts := ∅;
     recent_transactions := []; pending_transactions := [];
     max_recent_transactions := 50 |}.

Definition set_accounts (self : XRPLStateStore) (v : gmap string AccountState) :=
  {| connection_status := connection_status self; ledger := ledger self;
     wallets := wallets self; accounts := v;
     recent_transactions := recent_transactions self;
     pending_transactions := pending_transactions self;
     max_recent_transactions := max_recent_transactions self |}.

Definition set_recent (self : XRPLStateStore) (v : list TransactionState) :=
  {| connection_status := connection_status self; ledger := ledger self;
     wallets := wallets self; accounts := accounts self;
     recent_transactions := v;
     pending_transactions := pending_transactions self;
     max_recent_transactions := max_recent_transactions self |}.

Definition set_pending (self : XRPLStateStore) (v : list TransactionState) :=
  {| connection_status := connection_status self; ledger := ledger self;
     wallets := wallets self; accounts := accounts self;
     recent_transactions := recent_transactions self;
     pending_transactions := v;
     max_recent_transactions := max_recent_transactions self |}.

(** [update_account_balance] *)
Definition update_account_balance (self : XRPLStateStore) (addr : string)
    (bal : XRP) (now : Z) : XRPLStateStore :=
  match accounts self !! addr with
  | Some acct => set_accounts self (<[addr := update_balance acct bal now]> (accounts self))
  | None => set_accounts self (<[addr := new_AccountState addr bal now]> (accounts self))
  end.

(** The keyword arguments shared by [add_pending_transaction] and
    [add_received_transaction], with the clock reading for [timestamp]. *)
Record TxArgs := {
  arg_tx_type : string;
  arg_amount : option XRP;
  arg_source : string;
  arg_destination : string;
  arg_fee : option XRP;
  arg_now : Z
}.

(** [add_pending_transaction]: the store after the call and the record
    returned. *)
Definition add_pending_transaction (self : XRPLStateStore) (h : string)
    (a : TxArgs) : XRPLStateStore * TransactionState :=
  let tx := {| tx_hash := h; tx_type := arg_tx_type a; status := PENDING;
               amount := arg_amount a; source := arg_source a;
               destination := arg_destination a; fee := arg_fee a;
               ledger_index := None; timestamp := arg_now a;
               error_message := None |} in
  (set_pending self (pending_transactions self ++ [tx]), tx).

(** The "Trim history" block. *)
Definition trim_history (self : XRPLStateStore) : XRPLStateStore :=
  if Py.len (recent_transactions self) >? max_recent_transactions self
  then set_recent self (Py.slice_to (recent_transactions self) (max_recent_transactions self))
  else self.

Definition hash_is (h : string) (tx : TransactionState) : bool :=
  String.eqb (tx_hash tx) h.

(** [mark_transaction_validated].  The loop stops at the first pending
    record with the hash; that record is mutated where it sits (position
    [i]), removed with [list.remove] and inserted at the front of the
    history, which is then trimmed.  [None] is the [ValueError] of
    [list.remove]. *)
Definition mark_transaction_validated (self : XRPLStateStore) (h : string)
    (idx : Z) : option XRPLStateStore :=
  match Py.first_match (hash_is h) (pending_transactions self) 0 with
  | None => Some self
  | Some (i, tx) =>
      let tx' := mark_validated tx idx in
      let mutated := <[i := tx']> (pending_transactions self) in
      pending' ← Py.remove mutated tx';
      let s1 := set_pending self pending' in
      let s2 := set_recent s1 (tx' :: recent_transactions s1) in
      Some (trim_history s2)
  end.

(** [mark_transaction_failed]: as above with [mark_failed]; the source has
    no trimming block here. *)
Definition mark_transaction_failed (self : XRPLStateStore) (h : string)
    (error : string) : option XRPLStateStore :=
  match Py.first_match (hash_is h) (pending_transactions self) 0 with
  | None => Some self
  | Some (i, tx) =>
      let tx' := mark_failed tx error in
      let mutated := <[i := tx']> (pending_transactions self) in
      pending' ← Py.remove mutated tx';
      let s1 := set_pending self pending' in
      Some (set_recent s1 (tx' :: recent_transactions s1))
  end.

(** [add_received_transaction] *)
Definition add_received_transaction (self : XRPLStateStore) (h : string)
    (idx : Z) (a : TxArgs) : XRPLStateStore * TransactionState :=
  let tx := {| tx_hash := h; tx_type := arg_tx_type a; status := VALIDATED;
               amount := arg_amount a; source := arg_source a;
               destination := arg_destination a; fee := arg_fee a;
               ledger_index := Some idx; timestamp := arg_now a;
               error_message := None |} in
  (trim_history (set_recent self (tx :: recent_transactions self)), tx).

(** [get_transaction] *)
Definition get_transaction (self : XRPLStateStore) (h : string)
  : option TransactionState :=
  match Py.first_match (hash_is h) (pending_transactions self) 0 with
  | Some (_, tx) => Some tx
  | None => snd <$> Py.first_match (hash_is h) (recent_transactions self) 0
  end.

(** ** xrpl.models, as far as the client package uses it

    [StreamParameter], [Subscribe], [Unsubscribe] and the websocket client
    belong to xrpl-py.  The enumeration lists the members that the sources
    name; a request keeps the keyword arguments that the sources pass
    ([None] for an argument left out). *)

Inductive StreamParameter := LEDGER | TRANSACTIONS | TRANSACTIONS_PROPOSED.

#[global] Instance StreamParameter_eq_dec : EqDecision StreamParameter.
Proof. solve_decision. Defined.

#[global] Instance StreamParameter_countable : Countable StreamParameter.
Proof.
  refine (inj_countable'
    (λ s, match s with LEDGER => 0%nat | TRANSACTIONS => 1%nat
                     | TRANSACTIONS_PROPOSED => 2%nat end)
    (λ n, match n with O => LEDGER | S O => TRANSACTIONS
                     | _ => TRANSACTIONS_PROPOSED end) _).
  by intros [].
Defined.

Inductive Request :=
| Subscribe (streams : option (list StreamParameter)) (accounts : option (list string))
| Unsubscribe (streams : option (list StreamParameter)) (accounts : option (list string))
| Command (name : string).

(** An inbound frame, or the synthetic state message: a [dict]. *)
Definition Message := gmap string string.

Record Response := { result : Message }.

(** The transport handle: all that the package asks of it is [is_open()]. *)
Record AsyncWebsocketClient := { is_open : bool }.

(** What the package does to the outside: opening a transport, sending on
    it, a request/response exchange, and sleeping. *)
Inductive Effect :=
| EOpen (url : string) (ok : bool)
| ESend (r : Request)
| ERequest (r : Request)
| ESleep (d : Z).

(** Instances of Python's [Exception]. *)
Inductive Exception :=
| RuntimeError (msg : string)
| TransportError (msg : string).

Inductive Result (A : Type) :=
| Ok (a : A)
| Raise (e : Exception).
Arguments Ok {A} a.
Arguments Raise {A} e.

(** ** xrpl_client/connection.py *)

Inductive ConnectionState := DISCONNECTED | CONNECTING | CONNECTED | RECONNECTING.

(** [ConnectionState.name] *)
Definition state_name (s : ConnectionState) : string :=
  match s with
  | DISCONNECTED => "DISCONNECTED"
  | CONNECTING => "CONNECTING"
  | CONNECTED => "CONNECTED"
  | RECONNECTING => "RECONNECTING"
  end.

(** What the environment does during one pass of the supervisor loop.
    [StopCalled] and the [bool] flags mark a call of [disconnect()] by
    another task while the supervisor is suspended. *)
Inductive ReadEvent :=
| Recv (message : Message)
| StopCalled.

Inductive Ending :=
| Raises (e : Exception)
| Exhausted.

Inductive Attempt :=
| OpenFails (e : Exception) (stop_called : bool)
| Opened (reads : list ReadEvent) (ending : Ending).

Record Round := {
  attempt : Attempt;
  stop_while_sleeping : bool
}.

Inductive LoopStatus := Running | Returned.

Section Client.

(** Whatever the registered callbacks act upon.  A callback is a
    coroutine function of the message; it returns or raises an
    [Exception], and leaves the supervisor's own fields alone. *)
Context {World : Type}.

Definition Callback : Type := Message → World → Result unit * World.

(** Delays are floats in the source; the values that occur (1, their
    doubles, and the maximum) are integers that doubles hold exactly. *)
Record XRPLConnectionManager := {
  url : string;
  max_reconnect_delay : Z;
  _client : option AsyncWebsocketClient;
  _state : ConnectionState;
  _message_callbacks : list Callback;
  _reconnect_delay : Z;
  _should_run : bool;
  _message_task : option unit;
  _pending_subscriptions : list Request
}.

(** [XRPLConnectionManager(url, max_reconnect_delay)] *)
Definition new_manager (u : string) (max_delay : Z) : XRPLConnectionManager :=
  {| url := u; max_reconnect_delay := max_delay; _client := None;
     _state := DISCONNECTED; _message_callbacks := [];
     _reconnect_delay := 1; _should_run := false; _message_task := None;
     _pending_subscriptions := [] |}.

Definition set_client (v : option AsyncWebsocketClient) (m : XRPLConnectionManager) :=
  {| url := url m; max_reconnect_delay := max_reconnect_delay m; _client := v;
     _state := _state m; _message_callbacks := _message_callbacks m;
     _reconnect_delay := _reconnect_delay m; _should_run := _should_run m;
     _message_task := _message_task m;
     _pending_subscriptions := _pending_subscriptions m |}.

Definition set_state (v : ConnectionState) (m : XRPLConnectionManager) :=
  {| url := url m; max_reconnect_delay := max_reconnect_delay m; _client := _client m;
     _state := v; _message_callbacks := _message_callbacks m;
     _reconnect_delay := _reconnect_delay m; _should_run := _should_run m;
     _message_task := _message_task m;
     _pending_subscriptions := _pending_subscriptions m |}.

Definition set_callbacks (v : list Callback) (m : XRPLConnectionManager) :=
  {| url := url m; max_reconnect_delay := max_reconnect_delay m; _client := _client m;
     _state := _state m; _message_callbacks := v;
     _reconnect_delay := _reconnect_delay m; _should_run := _should_run m;
     _message_task := _message_task m;
     _pending_subscriptions := _pending_subscriptions m |}.

Definition set_delay (v : Z) (m : XRPLConnectionManager) :=
  {| url := url m; max_reconnect_delay := max_reconnect_delay m; _client := _client m;
     _state := _state m; _message_callbacks := _message_callbacks m;
     _reconnect_delay := v; _should_run := _should_run m;
     _message_task := _message_task m;
     _pending_subscriptions := _pending_subscriptions m |}.

Definition set_should_run (v : bool) (m : XRPLConnectionManager) :=
  {| url := url m; max_reconnect_delay := max_reconnect_delay m; _client := _client m;
     _state := _state m; _message_callbacks := _message_callbacks m;
     _reconnect_delay := _reconnect_delay m; _should_run := v;
     _message_task := _message_task m;
     _pending_subscriptions := _pending_subscriptions m |}.

Definition set_subscriptions (v : list Request) (m : XRPLConnectionManager) :=
  {| url := url m; max_reconnect_delay := max_reconnect_delay m; _client := _client m;
     _state := _state m; _message_callbacks := _message_callbacks m;
     _reconnect_delay := _reconnect_delay m; _should_run := _should_run m;
     _message_task := _message_task m;
     _pending_subscriptions := v |}.

(** [SubscriptionManager]: its [connection] field is a reference to the
    manager, which lives next to it in [State]. *)
Record SubscriptionManager := {
  _subscribed_streams : gset StreamParameter;
  _subscribed_accounts : gset string
}.

Definition new_tracker : SubscriptionManager :=
  {| _subscribed_streams := ∅; _subscribed_accounts := ∅ |}.

(** The objects of the client package, the callbacks' world and the log
    of effects. *)
Record State := {
  connection : XRPLConnectionManager;
  tracker : SubscriptionManager;
  world : World;
  effects : list Effect
}.

(** *** A state and exception monad for the coroutines

    A coroutine is run to completion; the fields it has assigned before
    raising stay assigned. *)
Definition M (A : Type) : Type := State → Result A * State.

Definition ret {A} (a : A) : M A := λ st, (Ok a, st).

Definition bind {A B} (c : M A) (k : A → M B) : M B :=
  λ st, match c st with
        | (Ok a, st') => k a st'
        | (Raise e, st') => (Raise e, st')
        end.

Definition raise {A} (e : Exception) : M A := λ st, (Raise e, st).

(** [try: c except Exception as e: h(e)] *)
Definition try_except {A} (c : M A) (h : Exception → M A) : M A :=
  λ st, match c st with
        | (Ok a, st') => (Ok a, st')
        | (Raise e, st') => h e st'
        end.

Definition get_connection : M XRPLConnectionManager := λ st, (Ok (connection st), st).
Definition get_tracker : M SubscriptionManager := λ st, (Ok (tracker st), st).

Definition update_connection (f : XRPLConnectionManager → XRPLConnectionManager) : M unit :=
  λ st, (Ok tt, {| connection := f (connection st); tracker := tracker st;
                   world := world st; effects := effects st |}).

Definition update_tracker (f : SubscriptionManager → SubscriptionManager) : M unit :=
  λ st, (Ok tt, {| connection := connection st; tracker := f (tracker st);
                   world := world st; effects := effects st |}).

Definition emit (e : Effect) : M unit :=
  λ st, (Ok tt, {| connection := connection st; tracker := tracker st;
                   world := world st; effects := effects st ++ [e] |}).

(** [await callback(message)] *)
Definition call (callback : Callback) (message : Message) : M unit :=
  λ st, let (r, w) := callback message (world st) in
        (r, {| connection := connection st; tracker := tracker st;
               world := w; effects := effects st |}).

End Client.

Arguments XRPLConnectionManager World : clear implicits.
Arguments SubscriptionManager : clear implicits.
Arguments State World : clear implicits.
Arguments Callback World : clear implicits.
Arguments M World A : clear implicits.

#[global] Instance M_ret {World} : MRet (M World) := λ A a, ret a.
#[global] Instance M_bind {World} : MBind (M World) := λ A B k c, bind c k.

Section Coroutines.

Context {World : Type}.

Local Abbreviation M := (M World).
Local Abbreviation Manager := (XRPLConnectionManager World).

(** [XRPLConnectionManager.is_connected] *)
Definition is_connected (self : Manager) : bool :=
  match _client self with
  | Some client => is_open client
  | None => false
  end.

(** [on_message] *)
Definition on_message (callback : Callback World) : M unit :=
  update_connection (λ self, set_callbacks (_message_callbacks self ++ [callback]) self).

(** [_dispatch_message]: the loop over the callbacks, each call inside
    [try ... except Exception: pass]. *)
Fixpoint dispatch_loop (callbacks : list (Callback World)) (message : Message) : M unit :=
  match callbacks with
  | [] => mret tt
  | callback :: rest =>
      try_except (call callback message) (λ _, mret tt);;
      dispatch_loop rest message
  end.

Definition _dispatch_message (message : Message) : M unit :=
  self ← get_connection;
  dispatch_loop (_message_callbacks self) message.

(** [_notify_state_change] *)
Definition _notify_state_change : M unit :=
  self ← get_connection;
  let state_message : Message :=
    {[ "type" := "__connection_state__"; "state" := state_name (_state self) ]} in
  _dispatch_message state_message.

(** [client.send(request)] and [client.request(request)] of the
    transport: they go out when the transport is open and raise
    otherwise.  The reply of the node is the environment's. *)
Definition client_send (client : AsyncWebsocketClient) (request : Request) : M unit :=
  if is_open client then emit (ESend request)
  else raise (TransportError "Websocket is not open").

Definition client_request (client : AsyncWebsocketClient) (request : Request)
    (reply : Response) : M Response :=
  if is_open client then emit (ERequest request);; mret reply
  else raise (TransportError "Websocket is not open").

(** [_restore_subscriptions] *)
Fixpoint restore_loop (requests : list Request) : M unit :=
  match requests with
  | [] => mret tt
  | request :: rest =>
      self ← get_connection;
      match _client self with
      | Some client =>
          if is_open client then client_send client request else mret tt
      | None => mret tt
      end;;
      restore_loop rest
  end.

Definition _restore_subscriptions : M unit :=
  self ← get_connection;
  restore_loop (_pending_subscriptions self).

(** [disconnect] *)
Definition disconnect : M unit :=
  update_connection (set_should_run false).

Definition NotConnected : Exception := RuntimeError "Not connected to XRPL".

(** [request].  The guard [not self.is_connected or self._client is None]
    is the [None] branch and the test of [is_connected] in the other. *)
Definition request (req : Request) (reply : Response) : M Response :=
  self ← get_connection;
  match _client self with
  | Some client =>
      if negb (is_connected self) then raise NotConnected
      else client_request client req reply
  | None => raise NotConnected
  end.

(** [add_subscription], [clear_subscriptions] *)
Definition add_subscription (req : Request) : M unit :=
  update_connection (λ self, set_subscriptions (_pending_subscriptions self ++ [req]) self).

Definition clear_subscriptions : M unit :=
  update_connection (set_subscriptions []).

(** [send] *)
Definition send (req : Request) (track_subscription : bool) : M unit :=
  self ← get_connection;
  match _client self with
  | Some client =>
      if negb (is_connected self) then raise NotConnected
      else
        (if track_subscription then add_subscription req else mret tt);;
        client_send client req
  | None => raise NotConnected
  end.

(** The [async for message in client] loop of [_connect_once]. *)
Fixpoint read_loop (reads : list ReadEvent) (ending : Ending) : M unit :=
  match reads with
  | [] =>
      match ending with
      | Raises e => raise e
      | Exhausted => mret tt
      end
  | Recv message :: rest =>
      self ← get_connection;
      if negb (_should_run self) then mret tt
      else _dispatch_message message;; read_loop rest ending
  | StopCalled :: rest =>
      disconnect;; read_loop rest ending
  end.

(** [_connect_once].  Leaving the [async with] block closes the
    transport; when the block is left by an exception the assignment
    [self._client = None] after it is not reached. *)
Definition _connect_once (a : Attempt) : M unit :=
  update_connection (set_state CONNECTING);;
  _notify_state_change;;
  self ← get_connection;
  match a with
  | OpenFails e stop_called =>
      (if stop_called then disconnect else mret tt);;
      emit (EOpen (url self) false);;
      raise e
  | Opened reads ending =>
      emit (EOpen (url self) true);;
      try_except
        (update_connection (set_client (Some {| is_open := true |}));;
         update_connection (set_state CONNECTED);;
         update_connection (set_delay 1);;
         _notify_state_change;;
         _restore_subscriptions;;
         read_loop reads ending)
        (λ e, update_connection (set_client (Some {| is_open := false |}));;
              raise e);;
      update_connection (set_client None)
  end.

(** The [while self._should_run] loop of [connect], one [Round] of the
    environment per pass.  [Running]: the rounds are used up and the
    supervisor is still looping. *)
Fixpoint connect_loop (script : list Round) : M LoopStatus :=
  match script with
  | [] =>
      self ← get_connection;
      if _should_run self then mret Running else mret Returned
  | round :: rest =>
      self ← get_connection;
      if negb (_should_run self) then mret Returned
      else
        continue ← try_except
          (_connect_once (attempt round);; mret true)
          (λ e,
             self ← get_connection;
             if negb (_should_run self) then mret false
             else
               update_connection (set_state RECONNECTING);;
               _notify_state_change;;
               self ← get_connection;
               emit (ESleep (_reconnect_delay self));;
               (if stop_while_sleeping round then disconnect else mret tt);;
               self ← get_connection;
               update_connection
                 (set_delay (Z.min (_reconnect_delay self * 2)
                                   (max_reconnect_delay self)));;
               mret true);
        if (continue : bool) then connect_loop rest else mret Returned
  end.

(** [connect] *)
Definition connect (script : list Round) : M LoopStatus :=
  update_connection (set_should_run true);;
  update_connection (set_delay 1);;
  status ← connect_loop script;
  match status with
  | Running => mret Running
  | Returned =>
      update_connection (set_state DISCONNECTED);;
      _notify_state_change;;
      mret Returned
  end.

(** ** xrpl_client/subscriptions.py *)

(** [_subscribe_stream] *)
Definition _subscribe_stream (stream : StreamParameter) : M unit :=
  self ← get_tracker;
  if decide (stream ∈ _subscribed_streams self) then mret tt
  else
    send (Subscribe (Some [stream]) None) true;;
    update_tracker (λ self,
      {| _subscribed_streams := _subscribed_streams self ∪ {[stream]};
         _subscribed_accounts := _subscribed_accounts self |}).

Definition subscribe_ledger : M unit := _subscribe_stream LEDGER.
Definition subscribe_transactions : M unit := _subscribe_stream TRANSACTIONS.
Definition subscribe_transactions_proposed : M unit :=
  _subscribe_stream TRANSACTIONS_PROPOSED.

(** [unsubscribe_stream] *)
Definition unsubscribe_stream (stream : StreamParameter) : M unit :=
  self ← get_tracker;
  if decide (stream ∉ _subscribed_streams self) then mret tt
  else
    send (Unsubscribe (Some [stream]) None) false;;
    update_tracker (λ self,
      {| _subscribed_streams := _subscribed_streams self ∖ {[stream]};
         _subscribed_accounts := _subscribed_accounts self |}).

(** [subscribe_accounts] *)
Definition subscribe_accounts (addresses : list string) : M unit :=
  self ← get_tracker;
  let new_addresses := filter (λ addr, addr ∉ _subscribed_accounts self) addresses in
  if decide (new_addresses = []) then mret tt
  else
    send (Subscribe None (Some new_addresses)) true;;
    update_tracker (λ self,
      {| _subscribed_streams := _subscribed_streams self;
         _subscribed_accounts := _subscribed_accounts self ∪ list_to_set new_addresses |}).

Definition subscribe_account (addr : string) : M unit := subscribe_accounts [addr].

(** [unsubscribe_account] *)
Definition unsubscribe_account (addr : string) : M unit :=
  self ← get_tracker;
  if decide (addr ∉ _subscribed_accounts self) then mret tt
  else
    send (Unsubscribe None (Some [addr])) false;;
    update_tracker (λ self,
      {| _subscribed_streams := _subscribed_streams self;
         _subscribed_accounts := _subscribed_accounts self ∖ {[addr]} |}).

(** [unsubscribe_all] *)
Definition unsubscribe_all : M unit :=
  self ← get_tracker;
  (if decide (_subscribed_streams self ≠ ∅) then
     send (Unsubscribe (Some (elements (_subscribed_streams self))) None) false;;
     update_tracker (λ self,
       {| _subscribed_streams := ∅;
          _subscribed_accounts := _subscribed_accounts self |})
   else mret tt);;
  self ← get_tracker;
  (if decide (_subscribed_accounts self ≠ ∅) then
     send (Unsubscribe None (Some (elements (_subscribed_accounts self)))) false;;
     update_tracker (λ self,
       {| _subscribed_streams := _subscribed_streams self;
          _subscribed_accounts := ∅ |})
   else mret tt);;
  clear_subscriptions.

End Coroutines.

(** ** Vocabulary of the store properties *)

(** Number of records of a list that carry the hash [h]. *)
Definition count_hash (h : string) (l : list TransactionState) : nat :=
  length (filter (λ tx, tx_hash tx = h) l).

(** The hashes held by the store, pending set first. *)
Definition hashes (s : XRPLStateStore) : list string :=
  tx_hash <$> (pending_transactions s ++ recent_transactions s).

(** The outcome that the specification expects of adding a pending record
    with hash [h] and validating it in ledger [idx]. *)
Definition validated_once (h : string) (idx : Z) (s : XRPLStateStore) : Prop :=
  (∃ tx, head (recent_transactions s) = Some tx ∧ tx_hash tx = h ∧
         status tx = VALIDATED ∧ ledger_index tx = Some idx) ∧
  count_hash h (recent_transactions s) = 1%nat ∧
  count_hash h (pending_transactions s) = 0%nat.

(** The public transaction operations, and runs of them. *)
Inductive StoreOp :=
| AddPending (h : string) (a : TxArgs)
| MarkValidated (h : string) (idx : Z)
| MarkFailed (h : string) (error : string)
| AddReceived (h : string) (idx : Z) (a : TxArgs).

Definition apply_op (s : XRPLStateStore) (op : StoreOp) : option XRPLStateStore :=
  match op with
  | AddPending h a => Some (fst (add_pending_transaction s h a))
  | MarkValidated h idx => mark_transaction_validated s h idx
  | MarkFailed h error => mark_transaction_failed s h error
  | AddReceived h idx a => Some (fst (add_received_transaction s h idx a))
  end.

Fixpoint run_ops (ops : list StoreOp) (s : XRPLStateStore) : option XRPLStateStore :=
  match ops with
  | [] => Some s
  | op :: rest => s' ← apply_op s op; run_ops rest s'
  end.

(** Every record that the run adds has a hash that the store does not hold
    at that moment. *)
Definition fresh_op (s : XRPLStateStore) (op : StoreOp) : Prop :=
  match op with
  | AddPending h _ | AddReceived h _ _ => h ∉ hashes s
  | MarkValidated _ _ | MarkFailed _ _ => True
  end.

Fixpoint inserts_fresh (ops : list StoreOp) (s : XRPLStateStore) : Prop :=
  match ops with
  | [] => True
  | op :: rest =>
      fresh_op s op ∧
      match apply_op s op with
      | Some s' => inserts_fresh rest s'
      | None => True
      end
  end.

(** Arguments and stores for the worked examples. *)
Definition payment : TxArgs :=
  {| arg_tx_type := "Payment"; arg_amount := Some (from_drops 1000000);
     arg_source := "rAlice"; arg_destination := "rBob";
     arg_fee := Some (from_drops 12); arg_now := 0 |}.

(** The store after [n] received transactions with hashes ["0"], ["1"], ... *)
Definition received (n : nat) : XRPLStateStore :=
  foldl (λ s i, fst (add_received_transaction s (pretty i) 7 payment))
        new_store (seq 0 n).

(** ** Vocabulary of the client properties *)

Section ClientVocabulary.

Context {World : Type}.

Definition set_world (w : World) (st : State World) : State World :=
  {| connection := connection st; tracker := tracker st;
     world := w; effects := effects st |}.

(** The world after one callback has been awaited with the message,
    whether it returned or raised. *)
Definition deliver (message : Message) (w : World) (callback : Callback World) : World :=
  (callback message w).2.

(** The world after each callback of the list, in list order, has been
    awaited once with the message. *)
Definition delivered (callbacks : list (Callback World)) (w : World) (message : Message)
  : World :=
  foldl (deliver message) w callbacks.

(** The message built by [_notify_state_change]. *)
Definition state_message (s : ConnectionState) : Message :=
  {[ "type" := "__connection_state__"; "state" := state_name s ]}.

End ClientVocabulary.

(** The delays slept by a trace of effects. *)
Definition sleeps (es : list Effect) : list Z :=
  omap (λ e, match e with ESleep d => Some d | _ => None end) es.

(** The requests sent by a trace of effects. *)
Definition sent (es : list Effect) : list Request :=
  omap (λ e, match e with ESend r => Some r | _ => None end) es.

(** The delay after [k] consecutive failures: doubled [k] times from 1 and
    capped. *)
Definition backoff (cap : Z) (k : nat) : Z := Z.min (2 ^ Z.of_nat k) cap.

(** The backoff discipline on a trace: each sleep lasts the delay due, the
    delay due doubles (up to the cap) after a sleep and is 1 again after a
    transport has been opened. *)
Definition next_delay (cap d : Z) (e : Effect) : Z :=
  match e with
  | ESleep _ => Z.min (d * 2) cap
  | EOpen _ true => 1
  | _ => d
  end.

Fixpoint backoff_trace (cap d : Z) (es : list Effect) : Prop :=
  match es with
  | [] => True
  | e :: rest =>
      match e with ESleep x => x = d | _ => True end ∧
      backoff_trace cap (next_delay cap d e) rest
  end.

(** A pass of the supervisor loop in which the transport cannot be opened
    and nobody calls [disconnect()]. *)
Definition failed_round (e : Exception) : Round :=
  {| attempt := OpenFails e false; stop_while_sleeping := false |}.

(** A pass in which the transport opens, and then closes or fails after the
    given frames, and nobody calls [disconnect()]. *)
Definition opened_round (frames : list Message) (ending : Ending) : Round :=
  {| attempt := Opened (Recv <$> frames) ending; stop_while_sleeping := false |}.

Section ClientRuns.

Context {World : Type}.

(** The state after a [send] that goes out. *)
Definition after_send (req : Request) (track : bool) (st : State World) : State World :=
  {| connection :=
       if track
       then set_subscriptions (_pending_subscriptions (connection st) ++ [req]) (connection st)
       else connection st;
     tracker := tracker st; world := world st;
     effects := effects st ++ [ESend req] |}.

(** What the application and the supervisor task do to the client objects,
    [unsubscribe_all] left out: calls of the tracker, and further passes of
    the supervisor loop.  A call that raises leaves the objects as they are
    at the raise. *)
Inductive ClientOp :=
| SubscribeStream (stream : StreamParameter)
| UnsubscribeStream (stream : StreamParameter)
| SubscribeAccounts (addresses : list string)
| UnsubscribeAccount (addr : string)
| Supervise (script : list Round).

Definition run_client_op (op : ClientOp) (st : State World) : State World :=
  match op with
  | SubscribeStream stream => (_subscribe_stream stream st).2
  | UnsubscribeStream stream => (unsubscribe_stream stream st).2
  | SubscribeAccounts addresses => (subscribe_accounts addresses st).2
  | UnsubscribeAccount addr => (unsubscribe_account addr st).2
  | Supervise script => (connect_loop script st).2
  end.

Definition run_client_ops (ops : list ClientOp) (st : State World) : State World :=
  foldl (λ st op, run_client_op op st) st ops.

(** The two calls of the specification's scenario. *)
Definition subscribe_twice (A B : string) : M World unit :=
  subscribe_accounts [A];; subscribe_accounts [A; B].

(** A stream and an account subscribed, then each unsubscribed on its
    own. *)
Definition subscribe_then_unsubscribe (stream : StreamParameter) (addr : string)
  : M World unit :=
  _subscribe_stream stream;;
  subscribe_accounts [addr];;
  unsubscribe_stream stream;;
  unsubscribe_account addr.

End ClientRuns.

(** A supervisor with an open transport, the ledger stream and the account
    ["rABC"] subscribed and tracked for replay, and one with a transport
    that has failed. *)
Definition online : State unit :=
  {| connection :=
       set_subscriptions [Subscribe (Some [LEDGER]) None; Subscribe None (Some ["rABC"])]
         (set_should_run true
            (set_state CONNECTED
               (set_client (Some {| is_open := true |})
                  (new_manager "wss://s.altnet.rippletest.net:51233" 30))));
     tracker := {| _subscribed_streams := {[LEDGER]};
                   _subscribed_accounts := {["rABC"]} |};
     world := tt; effects := [] |}.

Definition offline : State unit :=
  {| connection := set_client (Some {| is_open := false |})
                     (set_state RECONNECTING (connection online));
     tracker := tracker online; world := tt; effects := [] |}.

(** The fields of the manager that the supervisor loop never assigns. *)
Definition same_config {World} (c c' : XRPLConnectionManager World) : Prop :=
  url c' = url c ∧
  max_reconnect_delay c' = max_reconnect_delay c ∧
  _message_callbacks c' = _message_callbacks c ∧
  _pending_subscriptions c' = _pending_subscriptions c.

(** [n] delays from [d], each the double of the one before, up to the cap. *)
Fixpoint delays (cap d : Z) (n : nat) : list Z :=
  match n with
  | O => []
  | S n => d :: delays cap (Z.min (d * 2) cap) n
  end.

(** A supervisor on which [connect()] has not been called yet. *)
Definition fresh : State unit :=
  {| connection := new_manager "wss://s.altnet.rippletest.net:51233" 30;
     tracker := new_tracker; world := tt; effects := [] |}.

(** A callback that notes its number in a journal and then returns or
    raises. *)
Definition journal (i : nat) (fails : bool) : Callback (list nat) :=
  λ _ w, (if fails then Raise (RuntimeError "callback failed") else Ok tt, w ++ [i]).

Definition journalled : State (list nat) :=
  {| connection :=
       set_callbacks [journal 1 false; journal 2 true; journal 3 false]
         (set_should_run true (new_manager "wss://s.altnet.rippletest.net:51233" 30));
     tracker := new_tracker; world := []; effects := [] |}.

(** * Further functions of the sources *)

(** ** String slices and number formatting

    Strings are taken character by character; for the addresses and hashes
    of the ledger (ASCII) this is Python's indexing. *)

Module PyStr.

(** [s[:n]] *)
Definition first_chars (n : nat) (s : string) : string :=
  String.string_of_list_ascii (take n (String.list_ascii_of_string s)).

(** [s[-n:]] for a positive [n]: the whole string when it is shorter. *)
Definition last_chars (n : nat) (s : string) : string :=
  let l := String.list_ascii_of_string s in
  String.string_of_list_ascii (drop (length l - n) l).

(** [str(i)] of an [int] *)
Definition of_int (i : Z) : string := pretty i.

End PyStr.

(** ** xrp_amount.py, continued *)

(** [__gt__], [__ge__] *)
Definition xrp_gt (self other : XRP) : bool := drops self >? drops other.
Definition xrp_ge (self other : XRP) : bool := drops self >=? drops other.

(** [__repr__] *)
Definition xrp_repr (self : XRP) : string :=
  "XRP(drops=" +:+ PyStr.of_int (drops self) +:+ ")".

(** ** state/models.py, continued *)

(** [AccountState.short_address] and [WalletInfo.short_address] *)
Definition short_address (self : AccountState) : string :=
  PyStr.first_chars 6 (address self) +:+ "..." +:+ PyStr.last_chars 4 (address self).

Definition wallet_short_address (self : WalletInfo.t) : string :=
  let addr := WalletInfo.wallet self in
  PyStr.first_chars 6 addr +:+ "..." +:+ PyStr.last_chars 4 addr.

(** [TransactionState.short_hash] *)
Definition short_hash (self : TransactionState) : string :=
  PyStr.first_chars 8 (tx_hash self) +:+ "..." +:+ PyStr.last_chars 8 (tx_hash self).

(** ** state/store.py, continued *)

Definition set_wallets (self : XRPLStateStore) (v : gmap string WalletInfo.t) :=
  {| connection_status := connection_status self; ledger := ledger self;
     wallets := v; accounts := accounts self;
     recent_transactions := recent_transactions self;
     pending_transactions := pending_transactions self;
     max_recent_transactions := max_recent_transactions self |}.

Definition set_ledger (self : XRPLStateStore) (v : LedgerState.t) :=
  {| connection_status := connection_status self; ledger := v;
     wallets := wallets self; accounts := accounts self;
     recent_transactions := recent_transactions self;
     pending_transactions := pending_transactions self;
     max_recent_transactions := max_recent_transactions self |}.

(** [update_ledger].  [ripple_epoch] is [datetime(2000, 1, 1).timestamp()],
    which depends on the local time zone, and [fromtimestamp] is
    [datetime.fromtimestamp], which raises outside the range of dates of the
    platform ([None]).  The three assignments before the test of
    [close_time] stay made when it raises; the [bool] tells whether the
    call returned. *)
Definition update_ledger (self : XRPLStateStore) (idx : Z) (hash : string)
    (close_time : option Z) (txn_count : Z)
    (ripple_epoch : Z) (fromtimestamp : Z → option Z) : XRPLStateStore * bool :=
  let l := ledger self in
  let l1 := LedgerState.mk idx hash (LedgerState.close_time l) txn_count
              (LedgerState.reserve_base l) (LedgerState.reserve_increment l) in
  match close_time with
  | Some t =>
      if t =? 0 then (set_ledger self l1, true)
      else
        match fromtimestamp (ripple_epoch + t) with
        | Some dt =>
            (set_ledger self
               (LedgerState.mk idx hash (Some dt) txn_count
                  (LedgerState.reserve_base l) (LedgerState.reserve_increment l)), true)
        | None => (set_ledger self l1, false)
        end
  | None => (set_ledger self l1, true)
  end.

(** [add_wallet]: [now] and [now'] are the two readings of the clock, for
    [created_at] and for [last_updated] of a new account. *)
Definition add_wallet (self : XRPLStateStore) (wallet : string)
    (source : WalletSource) (label : string) (now now' : Z)
  : XRPLStateStore * WalletInfo.t :=
  let wallet_info := WalletInfo.mk wallet source label now in
  let s1 := set_wallets self (<[wallet := wallet_info]> (wallets self)) in
  let s2 :=
    if decide (wallet ∉ dom (accounts s1))
    then set_accounts s1 (<[wallet := new_AccountState wallet (from_drops 0) now']> (accounts s1))
    else s1 in
  (s2, wallet_info).

(** [remove_wallet] *)
Definition remove_wallet (self : XRPLStateStore) (addr : string) : XRPLStateStore :=
  if decide (addr ∈ dom (wallets self))
  then set_wallets self (delete addr (wallets self))
  else self.

(** [get_wallet] *)
Definition get_wallet (self : XRPLStateStore) (addr : string) : option WalletInfo.t :=
  wallets self !! addr.

(** [add_account]: an [XRP] instance is always truthy, so [balance or
    XRP.from_drops(0)] is the balance given, or zero for [None].  The [None]
    of the result cannot occur: the key has just been looked up or set. *)
Definition add_account (self : XRPLStateStore) (addr : string)
    (bal : option XRP) (now : Z) : XRPLStateStore * option AccountState :=
  let s1 :=
    if decide (addr ∉ dom (accounts self))
    then set_accounts self
           (<[addr := new_AccountState addr (default (from_drops 0) bal) now]> (accounts self))
    else self in
  (s1, accounts s1 !! addr).

(** [remove_account] *)
Definition remove_account (self : XRPLStateStore) (addr : string) : XRPLStateStore :=
  let s1 :=
    if decide (addr ∈ dom (accounts self))
    then set_accounts self (delete addr (accounts self))
    else self in
  remove_wallet s1 addr.

(** ** Vocabulary of the further store properties *)

(** A record is where its status says: pending records are [PENDING] with
    neither ledger index nor error, the history holds [VALIDATED] records
    with a ledger index and [FAILED] records with an error message. *)
Definition pending_shape (tx : TransactionState) : Prop :=
  status tx = PENDING ∧ ledger_index tx = None ∧ error_message tx = None.

Definition settled_shape (tx : TransactionState) : Prop :=
  (status tx = VALIDATED ∧ is_Some (ledger_index tx) ∧ error_message tx = None) ∨
  (status tx = FAILED ∧ is_Some (error_message tx) ∧ ledger_index tx = None).

Definition status_consistent (s : XRPLStateStore) : Prop :=
  Forall pending_shape (pending_transactions s) ∧
  Forall settled_shape (recent_transactions s).

(** The record that [add_received_transaction] builds. *)
Definition received_record (h : string) (idx : Z) (a : TxArgs) : TransactionState :=
  (add_received_transaction new_store h idx a).2.

(** The store after the receptions of a list, first to last. *)
Definition receive_all (s : XRPLStateStore) (l : list (string * Z * TxArgs))
  : XRPLStateStore :=
  foldl (λ s '(h, idx, a), (add_received_transaction s h idx a).1) s l.

(** No [MarkFailed] among the operations. *)
Definition never_fails (ops : list StoreOp) : Prop :=
  Forall (λ op, match op with MarkFailed _ _ => False | _ => True end) ops.

(** [XRPLStateStore(max_recent_transactions=n)] with the other fields of a
    given store. *)
Definition set_capacity (n : Z) (self : XRPLStateStore) : XRPLStateStore :=
  {| connection_status := connection_status self; ledger := ledger self;
     wallets := wallets self; accounts := accounts self;
     recent_transactions := recent_transactions self;
     pending_transactions := pending_transactions self;
     max_recent_transactions := n |}.

(** The payment of the examples, submitted five seconds later. *)
Definition later_payment : TxArgs :=
  {| arg_tx_type := "Payment"; arg_amount := Some (from_drops 1000000);
     arg_source := "rAlice"; arg_destination := "rBob";
     arg_fee := Some (from_drops 12); arg_now := 5 |}.

(** ** Vocabulary of the further client properties *)

(** [disconnect()] is called while the attempt is under way. *)
Definition attempt_stops (a : Attempt) : Prop :=
  match a with
  | OpenFails _ stop_called => stop_called = true
  | Opened reads _ => StopCalled ∈ reads
  end.

(** Nobody calls [disconnect()] during the pass. *)
Definition stop_free (r : Round) : Prop :=
  (∃ e, r = failed_round e) ∨ (∃ frames ending, r = opened_round frames ending).

Section MoreClientVocabulary.

Context {World : Type}.

(** Every stream and account that the tracker holds as subscribed occurs in
    a subscribe request of the replay list. *)
Definition covered (st : State World) : Prop :=
  (∀ stream, stream ∈ _subscribed_streams (tracker st) →
     ∃ l, stream ∈ l ∧
          Subscribe (Some l) None ∈ _pending_subscriptions (connection st)) ∧
  (∀ addr, addr ∈ _subscribed_accounts (tracker st) →
     ∃ l, addr ∈ l ∧
          Subscribe None (Some l) ∈ _pending_subscriptions (connection st)).

(** The calls of the tracker, [unsubscribe_all] included, and the passes of
    the supervisor loop. *)
Inductive TrackerCall :=
| Call (op : ClientOp)
| UnsubscribeAll.

Definition run_tracker_call (c : TrackerCall) (st : State World) : State World :=
  match c with
  | Call op => run_client_op op st
  | UnsubscribeAll => (unsubscribe_all st).2
  end.

Definition run_tracker_calls (cs : list TrackerCall) (st : State World) : State World :=
  foldl (λ st c, run_tracker_call c st) st cs.

(** The world after the callbacks have been told of a connection state. *)
Definition told (s : ConnectionState) (st : State World) : World :=
  delivered (_message_callbacks (connection st)) (world st) (state_message s).

(** The requests that [unsubscribe_all] sends for the sets of a tracker. *)
Definition unsubscribe_requests (t : SubscriptionManager) : list Request :=
  (if decide (_subscribed_streams t ≠ ∅)
   then [Unsubscribe (Some (elements (_subscribed_streams t))) None] else []) ++
  (if decide (_subscribed_accounts t ≠ ∅)
   then [Unsubscribe None (Some (elements (_subscribed_accounts t)))] else []).

(** A stream subscribed, unsubscribed and subscribed again. *)
Definition resubscribe (stream : StreamParameter) : M World unit :=
  _subscribe_stream stream;; unsubscribe_stream stream;; _subscribe_stream stream.

End MoreClientVocabulary.

(** A supervisor without an open transport whose tracker has one account
    and no stream subscribed. *)
Definition accounts_only : State unit :=
  {| connection := connection fresh;
     tracker := {| _subscribed_streams := ∅; _subscribed_accounts := {["rABC"]} |};
     world := tt; effects := [] |}.

(** * Properties of the state store *)

Section PyLemmas.

Context {A : Type}.

Lemma first_match_None (p : A → bool) (l : list A) (i : nat) :
  Forall (λ x, p x = false) l → Py.first_match p l i = None.
Proof.
  intros H. revert i. induction H as [|x l Hx _ IH]; intros i; simpl.
  - reflexivity.
  - rewrite Hx. apply IH.
Qed.

Lemma first_match_split (p : A → bool) (l : list A) (i : nat) :
  match Py.first_match p l i with
  | None => Forall (λ x, p x = false) l
  | Some (j, x) =>
      ∃ l1 l2, l = l1 ++ x :: l2 ∧ j = (i + length l1)%nat ∧
               Forall (λ y, p y = false) l1 ∧ p x = true
  end.
Proof.
  revert i. induction l as [|x l IH]; intros i; simpl.
  - constructor.
  - destruct (p x) eqn:Hx.
    + exists [], l. simpl. repeat split; [lia | constructor | done].
    + specialize (IH (S i)). destruct (Py.first_match p l (S i)) as [[j y]|].
      * destruct IH as (l1 & l2 & -> & -> & Hl1 & Hy).
        exists (x :: l1), l2. simpl. repeat split; [lia | by constructor | done].
      * by constructor.
Qed.

Lemma first_split_unique (p : A → bool) l1 x l2 k1 y k2 :
  l1 ++ x :: l2 = k1 ++ y :: k2 →
  Forall (λ z, p z = false) l1 → p x = true →
  Forall (λ z, p z = false) k1 → p y = true →
  k1 = l1 ∧ y = x ∧ k2 = l2.
Proof.
  intros Heq Hl1. revert k1 Heq.
  induction Hl1 as [|z l1 Hz _ IH]; intros [|w k1] Heq Hx Hk1 Hy; simpl in Heq.
  - by injection Heq as -> ->.
  - injection Heq as -> _. inversion Hk1; subst. congruence.
  - injection Heq as -> _. congruence.
  - injection Heq as -> Heq. inversion Hk1; subst.
    destruct (IH _ Heq Hx H2 Hy) as (-> & -> & ->). done.
Qed.

Lemma remove_middle `{EqDecision A} (l1 l2 : list A) (v : A) :
  Forall (λ x, x ≠ v) l1 → Py.remove (l1 ++ v :: l2) v = Some (l1 ++ l2).
Proof.
  induction 1 as [|x l1 Hx _ IH]; simpl.
  - by rewrite decide_True.
  - rewrite decide_False by done. by rewrite IH.
Qed.

Lemma slice_to_take (l : list A) (n : Z) : ∃ k, Py.slice_to l n = take k l.
Proof. unfold Py.slice_to. destruct (0 <=? n); eauto. Qed.

Lemma slice_to_nonneg (l : list A) (n : Z) :
  0 ≤ n → Py.slice_to l n = take (Z.to_nat n) l.
Proof. intros H. unfold Py.slice_to. by rewrite (proj2 (Z.leb_le 0 n) H). Qed.

End PyLemmas.

Lemma hash_is_true h tx : hash_is h tx = true ↔ tx_hash tx = h.
Proof. unfold hash_is. apply String.eqb_eq. Qed.

Lemma hash_is_false h tx : hash_is h tx = false ↔ tx_hash tx ≠ h.
Proof. unfold hash_is. apply String.eqb_neq. Qed.

Lemma not_pending_Forall h (l : list TransactionState) :
  (∀ tx, tx ∈ l → tx_hash tx ≠ h) ↔ Forall (λ tx, hash_is h tx = false) l.
Proof.
  rewrite Forall_forall. split; intros H tx Htx.
  - apply hash_is_false. by apply H.
  - apply hash_is_false. by apply H.
Qed.

(** The history after trimming is a prefix of the history before. *)
Lemma trim_history_prefix s :
  pending_transactions (trim_history s) = pending_transactions s ∧
  ∃ k, recent_transactions (trim_history s) = take k (recent_transactions s).
Proof.
  unfold trim_history. destruct (_ >? _); simpl.
  - split; [done|]. apply slice_to_take.
  - split; [done|]. exists (length (recent_transactions s)). by rewrite take_ge.
Qed.

(** With a capacity that is not negative the trimmed history fits it. *)
Lemma trim_history_length s :
  0 ≤ max_recent_transactions s →
  Py.len (recent_transactions (trim_history s)) ≤ max_recent_transactions s.
Proof.
  intros Hmax. unfold trim_history, Py.len.
  destruct (_ >? _) eqn:E; simpl.
  - rewrite slice_to_nonneg by done. rewrite length_take. lia.
  - unfold Py.len in E. lia.
Qed.

(** What the two marking operations do when the hash is pending: the first
    pending record with the hash leaves the pending list and heads the
    history. *)
Lemma mark_transaction_validated_found s h idx l1 tx l2 :
  pending_transactions s = l1 ++ tx :: l2 →
  Forall (λ y, hash_is h y = false) l1 → tx_hash tx = h →
  mark_transaction_validated s h idx =
    Some (trim_history
            (set_recent (set_pending s (l1 ++ l2))
                        (mark_validated tx idx :: recent_transactions s))).
Proof.
  intros Hp Hl1 Hh. unfold mark_transaction_validated.
  pose proof (first_match_split (hash_is h) (pending_transactions s) 0) as Hf.
  destruct (Py.first_match _ _ _) as [[j x]|].
  - destruct Hf as (k1 & k2 & Hk & -> & Hk1 & Hx).
    rewrite Hp in Hk. apply hash_is_true in Hh.
    destruct (first_split_unique _ _ _ _ _ _ _ Hk Hl1 Hh Hk1 Hx) as (-> & -> & ->).
    rewrite Hp. simpl.
    replace (<[(length l1):=mark_validated tx idx]> (l1 ++ tx :: l2))
      with (l1 ++ mark_validated tx idx :: l2).
    2:{ rewrite insert_app_r_alt by lia. by rewrite Nat.sub_diag. }
    rewrite remove_middle; [reflexivity|].
    eapply Forall_impl; [exact Hl1|]. intros y Hy Heq. subst y.
    apply hash_is_false in Hy. apply hash_is_true in Hh. by apply Hy.
  - rewrite Hp in Hf. apply Forall_app in Hf as [_ Hf].
    inversion Hf; subst. apply hash_is_false in H1. done.
Qed.

Lemma mark_transaction_failed_found s h error l1 tx l2 :
  pending_transactions s = l1 ++ tx :: l2 →
  Forall (λ y, hash_is h y = false) l1 → tx_hash tx = h →
  mark_transaction_failed s h error =
    Some (set_recent (set_pending s (l1 ++ l2))
                     (mark_failed tx error :: recent_transactions s)).
Proof.
  intros Hp Hl1 Hh. unfold mark_transaction_failed.
  pose proof (first_match_split (hash_is h) (pending_transactions s) 0) as Hf.
  destruct (Py.first_match _ _ _) as [[j x]|].
  - destruct Hf as (k1 & k2 & Hk & -> & Hk1 & Hx).
    rewrite Hp in Hk. apply hash_is_true in Hh.
    destruct (first_split_unique _ _ _ _ _ _ _ Hk Hl1 Hh Hk1 Hx) as (-> & -> & ->).
    rewrite Hp. simpl.
    replace (<[(length l1):=mark_failed tx error]> (l1 ++ tx :: l2))
      with (l1 ++ mark_failed tx error :: l2).
    2:{ rewrite insert_app_r_alt by lia. by rewrite Nat.sub_diag. }
    rewrite remove_middle; [reflexivity|].
    eapply Forall_impl; [exact Hl1|]. intros y Hy Heq. subst y.
    apply hash_is_false in Hy. apply hash_is_true in Hh. by apply Hy.
  - rewrite Hp in Hf. apply Forall_app in Hf as [_ Hf].
    inversion Hf; subst. apply hash_is_false in H1. done.
Qed.

(** Either the hash is not pending, or the pending list splits at the first
    record that has it. *)
Lemma pending_cases s h :
  Forall (λ y, hash_is h y = false) (pending_transactions s) ∨
  ∃ l1 tx l2, pending_transactions s = l1 ++ tx :: l2 ∧
              Forall (λ y, hash_is h y = false) l1 ∧ tx_hash tx = h.
Proof.
  pose proof (first_match_split (hash_is h) (pending_transactions s) 0) as Hf.
  destruct (Py.first_match _ _ _) as [[j x]|].
  - right. destruct Hf as (l1 & l2 & Hp & _ & Hl1 & Hx).
    exists l1, x, l2. by rewrite <- hash_is_true.
  - by left.
Qed.

Lemma mark_transaction_validated_absent s h idx :
  Forall (λ y, hash_is h y = false) (pending_transactions s) →
  mark_transaction_validated s h idx = Some s.
Proof.
  intros H. unfold mark_transaction_validated. by rewrite first_match_None.
Qed.

Lemma mark_transaction_failed_absent s h error :
  Forall (λ y, hash_is h y = false) (pending_transactions s) →
  mark_transaction_failed s h error = Some s.
Proof.
  intros H. unfold mark_transaction_failed. by rewrite first_match_None.
Qed.

(** The [list.remove] inside the marking operations always finds its
    argument: neither operation raises. *)
Lemma mark_transaction_validated_total s h idx :
  is_Some (mark_transaction_validated s h idx).
Proof.
  destruct (pending_cases s h) as [H | (l1 & tx & l2 & Hp & Hl1 & Hh)].
  - rewrite mark_transaction_validated_absent; eauto.
  - erewrite mark_transaction_validated_found; eauto.
Qed.

Lemma mark_transaction_failed_total s h error :
  is_Some (mark_transaction_failed s h error).
Proof.
  destruct (pending_cases s h) as [H | (l1 & tx & l2 & Hp & Hl1 & Hh)].
  - rewrite mark_transaction_failed_absent; eauto.
  - erewrite mark_transaction_failed_found; eauto.
Qed.

Lemma count_hash_absent h (l : list TransactionState) :
  (∀ tx, tx ∈ l → tx_hash tx ≠ h) → count_hash h l = 0%nat.
Proof.
  intros H. unfold count_hash.
  induction l as [|x l IH]; [done|].
  rewrite filter_cons_False.
  - apply IH. intros tx Htx. apply H. by right.
  - apply H. by left.
Qed.

(** A history headed by [x] keeps [x] at the head when the capacity is at
    least one. *)
Lemma trim_history_head s x r :
  1 ≤ max_recent_transactions s →
  recent_transactions s = x :: r →
  pending_transactions (trim_history s) = pending_transactions s ∧
  ∃ k, recent_transactions (trim_history s) = x :: take k r.
Proof.
  intros Hmax Hr. unfold trim_history. destruct (_ >? _); simpl.
  - split; [done|]. rewrite slice_to_nonneg by lia. rewrite Hr.
    exists (Z.to_nat (max_recent_transactions s) - 1)%nat.
    destruct (Z.to_nat (max_recent_transactions s)) as [|n] eqn:E; [lia|].
    simpl. by rewrite Nat.sub_0_r.
  - split; [done|]. exists (length r). by rewrite take_ge.
Qed.

(** ** Bounded history

    [mark_transaction_validated] and [add_received_transaction] leave at
    most [max_recent_transactions] records in the history. *)
Lemma mark_transaction_validated_bounded s h idx s' :
  0 ≤ max_recent_transactions s →
  mark_transaction_validated s h idx = Some s' →
  s' = s ∨ Py.len (recent_transactions s') ≤ max_recent_transactions s.
Proof.
  intros Hmax Hs'.
  destruct (pending_cases s h) as [H | (l1 & tx & l2 & Hp & Hl1 & Hh)].
  - left. rewrite mark_transaction_validated_absent in Hs' by done. congruence.
  - right. erewrite mark_transaction_validated_found in Hs' by eauto.
    injection Hs' as <-.
    by apply (trim_history_length (set_recent (set_pending s _) _)).
Qed.

Lemma add_received_transaction_bounded s h idx a :
  0 ≤ max_recent_transactions s →
  Py.len (recent_transactions (add_received_transaction s h idx a).1)
    ≤ max_recent_transactions s.
Proof.
  intros Hmax. unfold add_received_transaction. simpl.
  by apply (trim_history_length (set_recent s _)).
Qed.

(** [mark_transaction_failed] of a pending hash always lengthens the
    history by one. *)
Lemma mark_transaction_failed_grows s h error s' :
  ¬ Forall (λ y, hash_is h y = false) (pending_transactions s) →
  mark_transaction_failed s h error = Some s' →
  length (recent_transactions s') = S (length (recent_transactions s)).
Proof.
  intros Hin Hs'.
  destruct (pending_cases s h) as [H | (l1 & tx & l2 & Hp & Hl1 & Hh)]; [done|].
  erewrite mark_transaction_failed_found in Hs' by eauto. by injection Hs' as <-.
Qed.

(** Sixty received transactions: the history holds the fifty latest, the
    latest first. *)
Example retention_of_sixty :
  tx_hash <$> recent_transactions (received 60) = pretty <$> reverse (seq 10 50).
Proof. vm_compute. reflexivity. Qed.

(** ** C1 *)

(** C1, for stores that do not hold the hash yet.  For every store whose
    capacity is at least one and which holds no record with hash [h],
    neither pending nor in the history: after [add_pending_transaction] with hash [h] and then
    [mark_transaction_validated(h, idx)], the record that was created heads
    [recent_transactions] with status [VALIDATED] and ledger index [idx],
    it is the only record with hash [h] there, and no record with hash [h]
    is pending. *)
Theorem add_pending_then_validated s h a idx :
  (∀ tx, tx ∈ pending_transactions s → tx_hash tx ≠ h) →
  (∀ tx, tx ∈ recent_transactions s → tx_hash tx ≠ h) →
  1 ≤ max_recent_transactions s →
  ∃ s', mark_transaction_validated (add_pending_transaction s h a).1 h idx = Some s' ∧
        head (recent_transactions s') =
          Some (mark_validated (add_pending_transaction s h a).2 idx) ∧
        validated_once h idx s'.
Proof.
  intros Hpend Hrec Hmax. simpl.
  set (tx := {| tx_hash := h; status := PENDING |}).
  erewrite (mark_transaction_validated_found _ h idx (pending_transactions s) tx []);
    [| reflexivity | by apply not_pending_Forall | reflexivity].
  eexists. split; [reflexivity|].
  match goal with
  | |- context [trim_history ?x] =>
      destruct (trim_history_head x (mark_validated tx idx) (recent_transactions s))
        as (Hp & k & Hr); [exact Hmax | reflexivity |]
  end.
  unfold validated_once. rewrite Hr, Hp. simpl. repeat split.
  - exists (mark_validated tx idx). done.
  - unfold count_hash. rewrite filter_cons_True by done. simpl. f_equal.
    apply count_hash_absent. intros y Hy. apply Hrec.
    by apply (subseteq_take k).
  - rewrite app_nil_r. by apply count_hash_absent.
Qed.

Lemma add_pending_then_validated_witness :
  ∃ s', mark_transaction_validated
          (add_pending_transaction (received 3) "ABCD" payment).1 "ABCD" 42 = Some s' ∧
        head (recent_transactions s') =
          Some (mark_validated (add_pending_transaction (received 3) "ABCD" payment).2 42) ∧
        validated_once "ABCD" 42 s'.
Proof.
  apply (add_pending_then_validated (received 3) "ABCD" payment 42).
  - intros tx Htx. vm_compute in Htx. inversion Htx.
  - intros tx Htx. vm_compute in Htx.
    repeat (apply elem_of_cons in Htx as [-> | Htx]; [by vm_compute|]).
    inversion Htx.
  - vm_compute. discriminate.
Defined.

(** On a store that already holds a pending record with the hash, the
    older record is the one validated and the new one stays pending: C1
    does not hold for every store. *)
Lemma add_pending_then_validated_counterexample :
  ¬ ∀ s h a idx,
      ∃ s', mark_transaction_validated (add_pending_transaction s h a).1 h idx = Some s' ∧
            validated_once h idx s'.
Proof.
  intros H.
  destruct (H (add_pending_transaction new_store "ABCD" payment).1 "ABCD" payment 42)
    as (s' & Hs' & _ & _ & Hc).
  vm_compute in Hs'. injection Hs' as <-. vm_compute in Hc. discriminate.
Qed.

(** ** C2 *)

(** C2.  On a store with the default capacity whose history holds fifty
    records, [mark_transaction_failed] of a pending hash leaves fifty-one
    records in [recent_transactions]; [mark_transaction_validated] of the
    same hash on the same store leaves fifty. *)
Theorem mark_transaction_failed_exceeds_capacity :
  let s := (add_pending_transaction (received 50) "ABCD" payment).1 in
  max_recent_transactions s = 50 ∧
  length (recent_transactions s) = 50%nat ∧
  (length ∘ recent_transactions) <$> mark_transaction_failed s "ABCD" "tecNO_DST"
    = Some 51%nat ∧
  (length ∘ recent_transactions) <$> mark_transaction_validated s "ABCD" 42
    = Some 50%nat.
Proof. vm_compute. repeat split. Qed.

(** ** C6 *)

(** C6.  For every store and every hash that no pending record has,
    [mark_transaction_validated] and [mark_transaction_failed] return
    without raising and leave the whole store as it was, whatever the
    history holds. *)
Theorem mark_not_pending_is_noop s h idx error :
  (∀ tx, tx ∈ pending_transactions s → tx_hash tx ≠ h) →
  mark_transaction_validated s h idx = Some s ∧
  mark_transaction_failed s h error = Some s.
Proof.
  intros H. apply not_pending_Forall in H. split.
  - by apply mark_transaction_validated_absent.
  - by apply mark_transaction_failed_absent.
Qed.

(** The hash ["1"] is in the history of [received 3] and not pending. *)
Lemma mark_not_pending_is_noop_witness :
  "1" ∈ hashes (received 3) ∧
  mark_transaction_validated (received 3) "1" 42 = Some (received 3) ∧
  mark_transaction_failed (received 3) "1" "tecNO_DST" = Some (received 3).
Proof.
  split.
  - vm_compute. right. left.
  - apply (mark_not_pending_is_noop (received 3) "1" 42 "tecNO_DST").
    intros tx Htx. vm_compute in Htx. inversion Htx.
Defined.

(** ** C7 *)

(** C7.  [update_account_balance(address, B)] shifts the balance of an
    existing account into [previous_balance] and sets [balance] to [B]; for
    an unknown address it creates an account with balance [B] and no
    previous balance.  After two calls with [B1] then [B2] the account has
    [previous_balance = B1], [balance = B2] and a [balance_change] of
    exactly [B2 - B1] drops; 100_000_000 then 100_500_000 drops give
    500_000 drops. *)
Theorem update_account_balance_shift s addr B now B1 B2 t1 t2 :
  accounts (update_account_balance s addr B now) !! addr =
    Some match accounts s !! addr with
         | Some acct =>
             {| address := address acct; balance := B;
                previous_balance := Some (balance acct);
                sequence := sequence acct; last_updated := now |}
         | None =>
             {| address := addr; balance := B; previous_balance := None;
                sequence := 0; last_updated := now |}
         end
  ∧ (∃ acct,
       accounts (update_account_balance (update_account_balance s addr B1 t1) addr B2 t2)
         !! addr = Some acct ∧
       previous_balance acct = Some B1 ∧ balance acct = B2 ∧
       drops <$> balance_change acct = Some (drops B2 - drops B1))
  ∧ (∃ acct,
       accounts (update_account_balance
                   (update_account_balance s addr (from_drops 100000000) t1)
                   addr (from_drops 100500000) t2) !! addr = Some acct ∧
       drops <$> balance_change acct = Some 500000).
Proof.
  assert (Hstep : ∀ s B now,
    accounts (update_account_balance s addr B now) !! addr =
    Some match accounts s !! addr with
         | Some acct => update_balance acct B now
         | None => new_AccountState addr B now
         end).
  { intros s0 B0 now0. unfold update_account_balance.
    destruct (accounts s0 !! addr); simpl; by rewrite lookup_insert_eq. }
  assert (Htwo : ∀ B1 B2, ∃ acct,
    accounts (update_account_balance (update_account_balance s addr B1 t1) addr B2 t2)
      !! addr = Some acct ∧
    previous_balance acct = Some B1 ∧ balance acct = B2 ∧
    drops <$> balance_change acct = Some (drops B2 - drops B1)).
  { intros C1 C2. rewrite Hstep, Hstep. eexists. split; [reflexivity|].
    destruct (accounts s !! addr); done. }
  split; [|split].
  - apply Hstep.
  - apply Htwo.
  - destruct (Htwo (from_drops 100000000) (from_drops 100500000))
      as (acct & Ha & _ & _ & Hd).
    exists acct. split; [exact Ha|]. exact Hd.
Qed.

(** ** C8 *)

Lemma submseteq_NoDup {A} (l k : list A) : l ⊆+ k → NoDup k → NoDup l.
Proof.
  intros Hsub Hk. apply submseteq_sublist_r in Hsub as (l2 & Hperm & Hsl).
  rewrite Hperm. by eapply sublist_NoDup.
Qed.

(** The marking operations only move a record and keep its hash. *)
Lemma mark_transaction_validated_hashes s h idx s' :
  mark_transaction_validated s h idx = Some s' → hashes s' ⊆+ hashes s.
Proof.
  intros Hs'.
  destruct (pending_cases s h) as [H | (l1 & tx & l2 & Hp & Hl1 & Hh)].
  - rewrite mark_transaction_validated_absent in Hs' by done. by injection Hs' as <-.
  - erewrite mark_transaction_validated_found in Hs' by eauto. injection Hs' as <-.
    match goal with
    | |- context [trim_history ?x] =>
        destruct (trim_history_prefix x) as (Hq & k & Hr)
    end.
    unfold hashes. rewrite Hq, Hr, Hp. simpl.
    rewrite !fmap_app, fmap_cons, <- !(assoc_L (++)).
    apply submseteq_skips_l.
    transitivity ((tx_hash <$> l2) ++
                  (tx_hash <$> mark_validated tx idx :: recent_transactions s)).
    + apply submseteq_skips_l, (fmap_submseteq tx_hash), sublist_submseteq, sublist_take.
    + rewrite fmap_cons. simpl. rewrite <- Permutation_middle. done.
Qed.

Lemma mark_transaction_failed_hashes s h error s' :
  mark_transaction_failed s h error = Some s' → hashes s' ⊆+ hashes s.
Proof.
  intros Hs'.
  destruct (pending_cases s h) as [H | (l1 & tx & l2 & Hp & Hl1 & Hh)].
  - rewrite mark_transaction_failed_absent in Hs' by done. by injection Hs' as <-.
  - erewrite mark_transaction_failed_found in Hs' by eauto. injection Hs' as <-.
    unfold hashes. rewrite Hp. simpl.
    rewrite !fmap_app, !fmap_cons, <- !(assoc_L (++)). simpl.
    apply submseteq_skips_l. rewrite <- Permutation_middle. done.
Qed.

Lemma add_pending_transaction_hashes s h a :
  hashes (add_pending_transaction s h a).1 ≡ₚ h :: hashes s.
Proof.
  unfold hashes. simpl. rewrite !fmap_app. simpl.
  rewrite <- (assoc_L (++)). simpl. by rewrite <- Permutation_middle.
Qed.

Lemma add_received_transaction_hashes s h idx a :
  hashes (add_received_transaction s h idx a).1 ⊆+ h :: hashes s.
Proof.
  unfold add_received_transaction. simpl.
  match goal with
  | |- context [trim_history (set_recent s (?t :: _))] => set (tx := t)
  end.
  destruct (trim_history_prefix (set_recent s (tx :: recent_transactions s)))
    as (Hq & k & Hr).
  unfold hashes. rewrite Hq, Hr. simpl.
  rewrite !fmap_app.
  rewrite (Permutation_middle (tx_hash <$> pending_transactions s)).
  apply submseteq_skips_l.
  change (h :: (tx_hash <$> recent_transactions s))
    with (tx_hash <$> (tx :: recent_transactions s)).
  apply (fmap_submseteq tx_hash), sublist_submseteq, sublist_take.
Qed.

(** One operation with a fresh hash keeps the hashes distinct. *)
Lemma apply_op_unique s op :
  NoDup (hashes s) → fresh_op s op →
  ∃ s', apply_op s op = Some s' ∧ NoDup (hashes s').
Proof.
  intros Hnd Hfresh. destruct op as [h a | h idx | h error | h idx a]; simpl in *.
  - eexists. split; [reflexivity|].
    rewrite (add_pending_transaction_hashes s h a). by constructor.
  - destruct (mark_transaction_validated_total s h idx) as [s' Hs'].
    exists s'. split; [done|].
    eapply submseteq_NoDup; [|exact Hnd]. by eapply mark_transaction_validated_hashes.
  - destruct (mark_transaction_failed_total s h error) as [s' Hs'].
    exists s'. split; [done|].
    eapply submseteq_NoDup; [|exact Hnd]. by eapply mark_transaction_failed_hashes.
  - eexists. split; [reflexivity|].
    eapply submseteq_NoDup; [apply add_received_transaction_hashes|].
    by constructor.
Qed.

Lemma run_ops_unique ops : ∀ s,
  NoDup (hashes s) → inserts_fresh ops s →
  ∃ s', run_ops ops s = Some s' ∧ NoDup (hashes s').
Proof.
  induction ops as [|op ops IH]; intros s Hnd Hfresh; simpl in *.
  - eauto.
  - destruct Hfresh as [Hop Hrest].
    destruct (apply_op_unique s op Hnd Hop) as (s1 & Hs1 & Hnd1).
    rewrite Hs1 in Hrest |- *. simpl. by apply IH.
Qed.

(** C8, for runs that add fresh hashes only.  Every run of the public
    transaction operations from the empty store in which [add_pending_transaction] and
    [add_received_transaction] are only called with a hash that the store
    does not hold at that moment completes without raising and reaches a
    store in which no hash occurs twice across the pending list and the
    history. *)
Theorem fresh_inserts_keep_hashes_unique ops :
  inserts_fresh ops new_store →
  ∃ s, run_ops ops new_store = Some s ∧ NoDup (hashes s).
Proof. apply run_ops_unique. vm_compute. constructor. Qed.

Lemma fresh_inserts_keep_hashes_unique_witness :
  ∃ s, run_ops [AddPending "A1" payment; AddReceived "B2" 7 payment;
                MarkValidated "A1" 8; AddPending "C3" payment;
                MarkFailed "C3" "tecNO_DST"; MarkValidated "A1" 9] new_store = Some s ∧
       NoDup (hashes s).
Proof.
  apply (fresh_inserts_keep_hashes_unique
           [AddPending "A1" payment; AddReceived "B2" 7 payment;
            MarkValidated "A1" 8; AddPending "C3" payment;
            MarkFailed "C3" "tecNO_DST"; MarkValidated "A1" 9]).
  vm_compute.
  repeat split; intros H;
    repeat (apply elem_of_cons in H as [H | H]; [discriminate H|]);
    inversion H.
Defined.

(** The store keeps both records when the same hash is added twice: C8
    does not hold for every run. *)
Lemma reachable_hashes_unique_counterexample :
  ¬ ∀ ops s, run_ops ops new_store = Some s → NoDup (hashes s).
Proof.
  intros H.
  specialize (H [AddPending "ABCD" payment; AddPending "ABCD" payment] _ eq_refl).
  vm_compute in H. apply NoDup_cons in H as [Hin _]. apply Hin. left.
Qed.

(** * Properties of the connection supervisor *)

(** ** The backoff discipline on traces *)

Lemma backoff_trace_app cap d es1 es2 :
  backoff_trace cap d (es1 ++ es2) ↔
  backoff_trace cap d es1 ∧ backoff_trace cap (foldl (next_delay cap) d es1) es2.
Proof.
  revert d. induction es1 as [|e es1 IH]; intros d; simpl.
  - tauto.
  - rewrite IH. tauto.
Qed.

Lemma backoff_trace_sends cap d (requests : list Request) :
  backoff_trace cap d (ESend <$> requests) ∧
  foldl (next_delay cap) d (ESend <$> requests) = d.
Proof. induction requests as [|r requests [IH1 IH2]]; simpl; auto. Qed.

Lemma delays_backoff cap k n :
  1 ≤ cap → delays cap (backoff cap k) n = backoff cap <$> seq k n.
Proof.
  intros Hcap. revert k. induction n as [|n IH]; intros k; simpl; [done|].
  f_equal. rewrite <- IH. f_equal. unfold backoff.
  rewrite Nat2Z.inj_succ, Z.pow_succ_r by lia.
  assert (0 < 2 ^ Z.of_nat k) by (apply Z.pow_pos_nonneg; lia). lia.
Qed.

Lemma sleeps_app es1 es2 : sleeps (es1 ++ es2) = sleeps es1 ++ sleeps es2.
Proof. apply omap_app. Qed.

Lemma sleeps_sends (requests : list Request) : sleeps (ESend <$> requests) = [].
Proof. induction requests; simpl; auto. Qed.

(** Unfolding of the monad operations. *)
Ltac unfold_monad :=
  unfold mbind, mret, M_bind, M_ret, bind, ret, raise, try_except,
    get_connection, get_tracker, update_connection, update_tracker, emit in *.

Section Supervisor.

Context {World : Type}.

Implicit Types (st : State World) (message : Message) (req : Request).


Lemma dispatch_loop_delivers callbacks message st :
  dispatch_loop callbacks message st =
    (Ok tt, set_world (delivered callbacks (world st) message) st).
Proof.
  revert st. induction callbacks as [|cb cbs IH]; intros st.
  - by destruct st.
  - simpl. unfold_monad. unfold call.
    unfold delivered. simpl. unfold deliver at 2.
    destruct (cb message (world st)) as [[[]|e] w]; simpl; by rewrite IH.
Qed.

Lemma dispatch_message_delivers message st :
  _dispatch_message message st =
    (Ok tt, set_world (delivered (_message_callbacks (connection st)) (world st) message) st).
Proof. unfold _dispatch_message. unfold_monad. apply dispatch_loop_delivers. Qed.

Lemma notify_state_change_delivers st :
  _notify_state_change st =
    (Ok tt, set_world (delivered (_message_callbacks (connection st)) (world st)
                                 (state_message (_state (connection st)))) st).
Proof. unfold _notify_state_change. unfold_monad. apply dispatch_message_delivers. Qed.

(** The read loop while nobody stops the supervisor: every frame is
    dispatched, in the order received; the loop ends as the transport
    ends. *)
Lemma read_loop_delivers frames ending st :
  _should_run (connection st) = true →
  read_loop (Recv <$> frames) ending st =
    (match ending with Raises e => Raise e | Exhausted => Ok tt end,
     set_world (foldl (delivered (_message_callbacks (connection st))) (world st) frames) st).
Proof.
  revert st. induction frames as [|m frames IH]; intros st Hrun; simpl.
  - destruct ending, st; reflexivity.
  - unfold_monad. rewrite Hrun. simpl.
    rewrite dispatch_message_delivers. rewrite IH by done. done.
Qed.

(** ** C9 *)

(** C9.  [_dispatch_message] awaits every registered callback once with the
    message, in the order of the list, which is the order of registration
    since [on_message] appends; it returns normally whatever the callbacks
    raise, and a raising callback does not keep the later ones from being
    awaited.  In the read loop of a running supervisor every frame is
    dispatched in this way, in the order received, so a raising callback
    does not end the loop. *)
Theorem dispatch_reaches_every_callback st message callback frames ending :
  _dispatch_message message st =
    (Ok tt, set_world (delivered (_message_callbacks (connection st)) (world st) message) st)
  ∧ _message_callbacks (connection (on_message callback st).2) =
      _message_callbacks (connection st) ++ [callback]
  ∧ (∀ callbacks w, delivered (callbacks ++ [callback]) w message =
                    deliver message (delivered callbacks w message) callback)
  ∧ (let running := (update_connection (set_should_run true) st).2 in
     read_loop (Recv <$> frames) ending running =
       (match ending with Raises e => Raise e | Exhausted => Ok tt end,
        set_world (foldl (delivered (_message_callbacks (connection st))) (world st) frames)
                  running)).
Proof.
  split; [apply dispatch_message_delivers|].
  split; [reflexivity|].
  split; [intros; unfold delivered; by rewrite foldl_app|].
  simpl. by rewrite read_loop_delivers.
Qed.

Lemma send_not_connected st req track :
  is_connected (connection st) = false → send req track st = (Raise NotConnected, st).
Proof.
  intros Hc. unfold send. unfold_monad. unfold is_connected in *.
  destruct (_client (connection st)) as [client|]; [rewrite Hc|]; done.
Qed.

Lemma request_not_connected st req reply :
  is_connected (connection st) = false → request req reply st = (Raise NotConnected, st).
Proof.
  intros Hc. unfold request. unfold_monad. unfold is_connected in *.
  destruct (_client (connection st)) as [client|]; [rewrite Hc|]; done.
Qed.

(** ** C5 *)

(** C5.  In every state in which no transport is open, [send] and [request]
    raise the "Not connected" [RuntimeError] at once: the state, with the
    replay list and the log of effects, is as before the call. *)
Theorem send_request_fail_when_not_connected st req track reply :
  is_connected (connection st) = false →
  send req track st = (Raise NotConnected, st) ∧
  request req reply st = (Raise NotConnected, st).
Proof.
  intros Hc. split.
  - by apply send_not_connected.
  - by apply request_not_connected.
Qed.

(** When the transport is open [send] goes out, recording the request for
    replay if asked to. *)
Lemma send_connected st req track :
  is_connected (connection st) = true →
  send req track st = (Ok tt, after_send req track st).
Proof.
  intros Hc. unfold send, after_send. unfold_monad. unfold is_connected in *.
  destruct (_client (connection st)) as [client|]; [|done].
  rewrite Hc. simpl. unfold client_send. rewrite Hc.
  destruct track; reflexivity.
Qed.

Lemma send_cases st req track :
  send req track st = (Raise NotConnected, st) ∨
  (is_connected (connection st) = true ∧
   send req track st = (Ok tt, after_send req track st)).
Proof.
  destruct (is_connected (connection st)) eqn:Hc.
  - right. split; [done|]. by apply send_connected.
  - left. by apply send_not_connected.
Qed.

(** While the transport is open [_restore_subscriptions] sends the whole
    replay list, in order. *)
Lemma restore_loop_sends requests st :
  is_connected (connection st) = true →
  restore_loop requests st =
    (Ok tt, {| connection := connection st; tracker := tracker st;
               world := world st; effects := effects st ++ (ESend <$> requests) |}).
Proof.
  revert st. induction requests as [|r requests IH]; intros st Hc; simpl.
  - rewrite app_nil_r. by destruct st.
  - unfold_monad. unfold is_connected in Hc.
    destruct (_client (connection st)) as [client|] eqn:Hcl; [|done].
    rewrite Hc. unfold client_send. rewrite Hc. simpl.
    rewrite IH; simpl.
    + by rewrite <- (assoc_L (++)).
    + unfold is_connected. by rewrite Hcl.
Qed.

(** The read loop touches neither the tracker nor the log of effects, and
    of the manager at most [_should_run]. *)
Lemma read_loop_frame reads ending st :
  ∃ r st', read_loop reads ending st = (r, st') ∧
           tracker st' = tracker st ∧ effects st' = effects st ∧
           (connection st' = connection st ∨
            connection st' = set_should_run false (connection st)).
Proof.
  revert st. induction reads as [|[m|] reads IH]; intros st; simpl.
  - destruct ending; unfold_monad; eauto 10.
  - unfold_monad. destruct (_should_run (connection st)); simpl; [|eauto 10].
    rewrite dispatch_message_delivers.
    destruct (IH (set_world (delivered (_message_callbacks (connection st)) (world st) m) st))
      as (r & st' & -> & Ht & He & Hc).
    eauto 10.
  - unfold disconnect. unfold_monad.
    match goal with |- context [read_loop reads ending ?s] =>
      destruct (IH s) as (r & st' & -> & Ht & He & Hc) end.
    simpl in *. exists r, st'. repeat split; [done..|].
    right. destruct Hc as [-> | ->]; reflexivity.
Qed.

(** A pass in which the transport cannot be opened. *)
Lemma connect_once_fails e stop st :
  ∃ st', _connect_once (OpenFails e stop) st = (Raise e, st') ∧
         tracker st' = tracker st ∧
         same_config (connection st) (connection st') ∧
         _reconnect_delay (connection st') = _reconnect_delay (connection st) ∧
         _should_run (connection st') = (if stop then false else _should_run (connection st)) ∧
         effects st' = effects st ++ [EOpen (url (connection st)) false].
Proof.
  unfold _connect_once. unfold_monad. rewrite notify_state_change_delivers. simpl.
  destruct stop; simpl; eexists; (split; [reflexivity|]); simpl;
    repeat split; reflexivity.
Qed.

(** A pass in which the transport opens: the backoff delay is 1 again and
    the replay list is sent. *)
Lemma connect_once_opened reads ending st :
  ∃ r st', _connect_once (Opened reads ending) st = (r, st') ∧
           tracker st' = tracker st ∧
           same_config (connection st) (connection st') ∧
           _reconnect_delay (connection st') = 1 ∧
           (_should_run (connection st') = _should_run (connection st) ∨
            _should_run (connection st') = false) ∧
           effects st' = effects st ++
             EOpen (url (connection st)) true
             :: (ESend <$> _pending_subscriptions (connection st)).
Proof.
  unfold _connect_once. unfold_monad. rewrite notify_state_change_delivers. simpl.
  rewrite notify_state_change_delivers. simpl.
  unfold _restore_subscriptions. unfold_monad. simpl.
  rewrite restore_loop_sends by reflexivity. simpl.
  match goal with |- context [read_loop reads ending ?s] =>
    destruct (read_loop_frame reads ending s) as (r & st' & -> & Ht & He & Hc) end.
  simpl in *.
  destruct r as [[]|e]; simpl; do 2 eexists; (split; [reflexivity|]); simpl;
    rewrite ?Ht, ?He, <- ?(assoc_L (++)); simpl;
    (destruct Hc as [-> | ->]; simpl; repeat split; auto).
Qed.

(** The supervisor loop, whatever the environment does: it touches neither
    the tracker nor the configuration of the manager, and its effects obey
    the backoff discipline from the delay it starts with. *)
Lemma connect_loop_trace script : ∀ st,
  ∃ status st',
    connect_loop script st = (Ok status, st') ∧
    tracker st' = tracker st ∧
    same_config (connection st) (connection st') ∧
    ∃ new, effects st' = effects st ++ new ∧
           backoff_trace (max_reconnect_delay (connection st))
                         (_reconnect_delay (connection st)) new ∧
           foldl (next_delay (max_reconnect_delay (connection st)))
                 (_reconnect_delay (connection st)) new
             = _reconnect_delay (connection st').
Proof.
  assert (Hstay : ∀ st status, ∃ status' st',
            (Ok status : Result LoopStatus, st) = (Ok status', st') ∧
            tracker st' = tracker st ∧
            same_config (connection st) (connection st') ∧
            ∃ new, effects st' = effects st ++ new ∧
              backoff_trace (max_reconnect_delay (connection st))
                            (_reconnect_delay (connection st)) new ∧
              foldl (next_delay (max_reconnect_delay (connection st)))
                    (_reconnect_delay (connection st)) new
                = _reconnect_delay (connection st')).
  { intros st status. exists status, st. repeat split.
    exists []. by rewrite app_nil_r. }
  induction script as [|[a sws] script IH]; intros st; simpl; unfold_monad.
  - destruct (_should_run (connection st)); apply Hstay.
  - destruct (_should_run (connection st)) eqn:Hrun; simpl; [|apply Hstay].
    destruct a as [e stop | reads ending].
    + destruct (connect_once_fails e stop st)
        as (st1 & -> & Ht1 & (Hu1 & Hm1 & Hcb1 & Hp1) & Hd1 & Hr1 & He1).
      rewrite Hr1, Hrun. destruct stop; simpl.
      { exists Returned, st1. repeat split; try done.
        exists [EOpen (url (connection st)) false]. simpl. auto. }
      rewrite notify_state_change_delivers. simpl.
      destruct sws; unfold disconnect; unfold_monad; simpl;
        (match goal with |- context [connect_loop script ?s] =>
           destruct (IH s)
             as (status & st' & Hloop & Ht & (Hu & Hm & Hcb & Hp) & new & He & Hb & Hf)
         end);
        simpl in *; rewrite Hloop;
        exists status, st'; (split; [reflexivity|]);
        (split; [congruence|]); (split; [repeat split; congruence|]);
        exists ([EOpen (url (connection st)) false;
                 ESleep (_reconnect_delay (connection st))] ++ new);
        rewrite He, He1, Hd1, Hm1 in *; rewrite <- !(assoc_L (++)); simpl;
        (split; [reflexivity|]); auto.
    + destruct (connect_once_opened reads ending st)
        as (r & st1 & -> & Ht1 & (Hu1 & Hm1 & Hcb1 & Hp1) & Hd1 & Hr1 & He1).
      pose proof (backoff_trace_sends (max_reconnect_delay (connection st)) 1
                    (_pending_subscriptions (connection st))) as [Hs1 Hs2].
      destruct r as [[]|e]; simpl.
      { destruct (IH st1) as (status & st' & -> & Ht & (Hu & Hm & Hcb & Hp) & new & He & Hb & Hf).
        exists status, st'. (split; [reflexivity|]).
        (split; [congruence|]). (split; [repeat split; congruence|]).
        exists ((EOpen (url (connection st)) true
                 :: (ESend <$> _pending_subscriptions (connection st))) ++ new).
        rewrite He, He1, Hd1, Hm1 in *. rewrite <- !(assoc_L (++)). simpl.
        split; [reflexivity|]. rewrite backoff_trace_app, foldl_app, Hs2. auto. }
      destruct (_should_run (connection st1)) eqn:Hrun1; simpl.
      2:{ exists Returned, st1. repeat split; try done.
          exists (EOpen (url (connection st)) true
                  :: (ESend <$> _pending_subscriptions (connection st))).
          simpl. rewrite Hs2. auto. }
      rewrite notify_state_change_delivers. simpl.
      destruct sws; unfold disconnect; unfold_monad; simpl;
        (match goal with |- context [connect_loop script ?s] =>
           destruct (IH s)
             as (status & st' & Hloop & Ht & (Hu & Hm & Hcb & Hp) & new & He & Hb & Hf)
         end);
        simpl in *; rewrite Hloop;
        exists status, st'; (split; [reflexivity|]);
        (split; [congruence|]); (split; [repeat split; congruence|]);
        exists ((EOpen (url (connection st)) true
                 :: (ESend <$> _pending_subscriptions (connection st)))
                ++ [ESleep 1] ++ new);
        rewrite He, He1, Hd1, Hm1 in *; rewrite <- !(assoc_L (++)); simpl;
        (split; [reflexivity|]);
        rewrite backoff_trace_app, foldl_app, Hs2; simpl; auto.
Qed.

(** ** Passes without a stop request *)

Lemma connect_loop_failed_round e rest st :
  _should_run (connection st) = true →
  ∃ st1, connect_loop (failed_round e :: rest) st = connect_loop rest st1 ∧
         _should_run (connection st1) = true ∧
         max_reconnect_delay (connection st1) = max_reconnect_delay (connection st) ∧
         _reconnect_delay (connection st1) =
           Z.min (_reconnect_delay (connection st) * 2) (max_reconnect_delay (connection st)) ∧
         effects st1 = effects st ++ [EOpen (url (connection st)) false;
                                      ESleep (_reconnect_delay (connection st))].
Proof.
  intros Hrun. simpl. unfold_monad. rewrite Hrun. simpl.
  destruct (connect_once_fails e false st)
    as (st1 & -> & Ht1 & (Hu1 & Hm1 & Hcb1 & Hp1) & Hd1 & Hr1 & He1).
  rewrite Hr1, Hrun. simpl. rewrite notify_state_change_delivers. simpl.
  eexists. split; [reflexivity|]. simpl.
  rewrite Hr1, Hm1, Hd1, He1, <- (assoc_L (++)). done.
Qed.

Lemma connect_once_opened_running frames ending st :
  _should_run (connection st) = true →
  ∃ st', _connect_once (Opened (Recv <$> frames) ending) st =
           (match ending with Raises e => Raise e | Exhausted => Ok tt end, st') ∧
         _should_run (connection st') = true ∧
         max_reconnect_delay (connection st') = max_reconnect_delay (connection st) ∧
         _message_callbacks (connection st') = _message_callbacks (connection st) ∧
         _reconnect_delay (connection st') = 1 ∧
         sleeps (effects st') = sleeps (effects st).
Proof.
  intros Hrun. unfold _connect_once. unfold_monad.
  rewrite notify_state_change_delivers. simpl.
  rewrite notify_state_change_delivers. simpl.
  unfold _restore_subscriptions. unfold_monad. simpl.
  rewrite restore_loop_sends by reflexivity. simpl.
  rewrite read_loop_delivers by done. simpl.
  destruct ending; simpl; eexists; (split; [reflexivity|]); simpl;
    rewrite !sleeps_app, sleeps_sends; simpl; rewrite !app_nil_r; done.
Qed.

Lemma connect_loop_opened_round frames ending rest st :
  _should_run (connection st) = true →
  ∃ st1, connect_loop (opened_round frames ending :: rest) st = connect_loop rest st1 ∧
         _should_run (connection st1) = true ∧
         max_reconnect_delay (connection st1) = max_reconnect_delay (connection st) ∧
         _reconnect_delay (connection st1) =
           match ending with
           | Raises _ => Z.min 2 (max_reconnect_delay (connection st))
           | Exhausted => 1
           end ∧
         sleeps (effects st1) =
           sleeps (effects st) ++ match ending with Raises _ => [1] | Exhausted => [] end.
Proof.
  intros Hrun. simpl. unfold_monad. rewrite Hrun. simpl.
  destruct (connect_once_opened_running frames ending st Hrun)
    as (st1 & -> & Hr1 & Hm1 & Hcb1 & Hd1 & Hs1).
  destruct ending; simpl.
  - rewrite Hr1. simpl. rewrite notify_state_change_delivers. simpl.
    eexists. split; [reflexivity|]. simpl.
    rewrite Hr1, Hm1, Hd1, sleeps_app, Hs1. done.
  - exists st1. rewrite app_nil_r. done.
Qed.

Lemma connect_loop_failures es rest : ∀ st,
  _should_run (connection st) = true →
  ∃ st1, connect_loop ((failed_round <$> es) ++ rest) st = connect_loop rest st1 ∧
         _should_run (connection st1) = true ∧
         max_reconnect_delay (connection st1) = max_reconnect_delay (connection st) ∧
         sleeps (effects st1) =
           sleeps (effects st) ++
           delays (max_reconnect_delay (connection st))
                  (_reconnect_delay (connection st)) (length es).
Proof.
  induction es as [|e es IH]; intros st Hrun.
  - exists st. simpl. by rewrite app_nil_r.
  - rewrite fmap_cons, <- app_comm_cons.
    destruct (connect_loop_failed_round e ((failed_round <$> es) ++ rest) st Hrun)
      as (st1 & -> & Hr1 & Hm1 & Hd1 & He1).
    destruct (IH st1 Hr1) as (st2 & -> & Hr2 & Hm2 & Hs2).
    exists st2. split; [done|]. split; [done|]. split; [congruence|].
    rewrite Hs2, He1, Hm1, Hd1, sleeps_app, <- (assoc_L (++)). done.
Qed.

Lemma connect_loop_running st :
  _should_run (connection st) = true → connect_loop [] st = (Ok Running, st).
Proof. intros Hrun. simpl. unfold_monad. by rewrite Hrun. Qed.

(** ** C3 *)

(** C3.  With a maximum delay of 30: when the first passes of [connect] all
    fail to open the transport, the sleeps after the failures last 1, 2, 4,
    8, 16, 30, 30, 30, ...: the [k]-th lasts [min(2^(k-1), 30)].  When a
    pass opens the transport after any number of failures, the sleeps after
    it start from 1 again, whether the opened transport later fails or
    closes.  In every run of [connect], whatever the environment does, each
    sleep lasts the delay due, which is 1 at the start and after every
    opening and doubles, up to 30, after every sleep. *)
Theorem reconnect_backoff st es es' frames ending script :
  max_reconnect_delay (connection st) = 30 →
  sleeps (effects (connect (failed_round <$> es) st).2)
    = sleeps (effects st) ++ (backoff 30 <$> seq 0 (length es))
  ∧ backoff 30 <$> seq 0 8 = [1; 2; 4; 8; 16; 30; 30; 30]
  ∧ sleeps (effects (connect ((failed_round <$> es) ++
                              opened_round frames ending :: (failed_round <$> es')) st).2)
    = sleeps (effects st) ++ (backoff 30 <$> seq 0 (length es)) ++
      (backoff 30 <$> seq 0 (match ending with
                             | Raises _ => S (length es')
                             | Exhausted => length es'
                             end))
  ∧ ∃ new, effects (connect script st).2 = effects st ++ new ∧
           backoff_trace 30 1 new.
Proof.
  intros Hmax.
  set (st0 := {| connection := set_delay 1 (set_should_run true (connection st));
                 tracker := tracker st; world := world st; effects := effects st |}).
  assert (Hconnect : ∀ script, connect script st =
            (status ← connect_loop script;
             match status with
             | Running => mret Running
             | Returned =>
                 update_connection (set_state DISCONNECTED);;
                 _notify_state_change;; mret Returned
             end) st0) by reflexivity.
  assert (Hrun0 : _should_run (connection st0) = true) by reflexivity.
  split; [|split; [|split]].
  - rewrite Hconnect. unfold_monad.
    destruct (connect_loop_failures es [] st0 Hrun0) as (st1 & Hl & Hr1 & Hm1 & Hs1).
    rewrite app_nil_r in Hl. rewrite Hl, connect_loop_running by done. simpl.
    rewrite Hs1. simpl. rewrite Hmax.
    by rewrite <- (delays_backoff 30 0).
  - reflexivity.
  - rewrite Hconnect. unfold_monad.
    destruct (connect_loop_failures es
                (opened_round frames ending :: (failed_round <$> es')) st0 Hrun0)
      as (st1 & -> & Hr1 & Hm1 & Hs1).
    destruct (connect_loop_opened_round frames ending (failed_round <$> es') st1 Hr1)
      as (st2 & -> & Hr2 & Hm2 & Hd2 & Hs2).
    destruct (connect_loop_failures es' [] st2 Hr2) as (st3 & Hl & Hr3 & Hm3 & Hs3).
    rewrite app_nil_r in Hl. rewrite Hl, connect_loop_running by done. simpl.
    rewrite Hs3, Hs2, Hs1, Hm2, Hd2, Hm1. simpl. rewrite Hmax.
    rewrite <- !(assoc_L (++)). f_equal.
    rewrite <- (delays_backoff 30 0 (length es)) by lia. f_equal.
    destruct ending.
    + rewrite <- (delays_backoff 30 0 (S (length es'))) by lia. reflexivity.
    + rewrite <- (delays_backoff 30 0 (length es')) by lia. reflexivity.
  - rewrite Hconnect. unfold_monad.
    destruct (connect_loop_trace script st0)
      as (status & st1 & -> & Ht & Hcfg & new & He & Hb & Hf).
    simpl in He, Hb. rewrite Hmax in Hb.
    exists new. split; [|exact Hb].
    destruct status; simpl; [done|].
    rewrite notify_state_change_delivers. simpl. done.
Qed.

End Supervisor.

(** Three callbacks of which the second raises: all three get the message,
    in the order of registration, and the two frames of a read loop reach
    all three as well. *)
Example dispatch_past_raising_callback :
  _dispatch_message ∅ journalled = (Ok tt, set_world [1; 2; 3]%nat journalled) ∧
  world (read_loop [Recv ∅; Recv ∅] Exhausted journalled).2 = [1; 2; 3; 1; 2; 3]%nat.
Proof. split; reflexivity. Qed.

Lemma send_request_fail_when_not_connected_witness :
  is_connected (connection offline) = false ∧
  send (Subscribe None (Some ["rXYZ"])) true offline = (Raise NotConnected, offline) ∧
  request (Command "account_info") {| result := ∅ |} offline = (Raise NotConnected, offline).
Proof.
  split; [reflexivity|].
  apply (send_request_fail_when_not_connected offline
           (Subscribe None (Some ["rXYZ"])) true {| result := ∅ |}).
  reflexivity.
Defined.

Lemma reconnect_backoff_witness :
  let refused := TransportError "refused" in
  sleeps (effects (connect (failed_round <$> replicate 8 refused) fresh).2)
    = [1; 2; 4; 8; 16; 30; 30; 30] ∧
  sleeps (effects (connect ((failed_round <$> replicate 3 refused) ++
                            opened_round [] (Raises (TransportError "reset"))
                            :: (failed_round <$> replicate 2 refused)) fresh).2)
    = [1; 2; 4] ++ [1; 2; 4].
Proof.
  intros refused.
  destruct (reconnect_backoff fresh (replicate 8 refused) [] [] Exhausted [])
    as (H1 & _); [reflexivity|].
  destruct (reconnect_backoff fresh (replicate 3 refused) (replicate 2 refused) []
              (Raises (TransportError "reset")) [])
    as (_ & _ & H2 & _); [reflexivity|].
  split; [exact H1 | exact H2].
Defined.

(** * Properties of the subscription tracker *)

Section Tracker.

Context {World : Type}.

Implicit Types (st : State World) (req : Request).

Lemma filter_known (S : gset string) (addresses : list string) :
  (∀ a, a ∈ addresses → a ∈ S) → filter (λ addr, addr ∉ S) addresses = [].
Proof.
  intros H. induction addresses as [|a l IH]; [done|].
  rewrite filter_cons_False.
  - apply IH. intros b Hb. apply H. by right.
  - intros Hn. apply Hn, H. by left.
Qed.

Lemma subscribe_accounts_known st addresses :
  (∀ a, a ∈ addresses → a ∈ _subscribed_accounts (tracker st)) →
  subscribe_accounts addresses st = (Ok tt, st).
Proof.
  intros H. unfold subscribe_accounts. unfold_monad.
  rewrite filter_known by done. reflexivity.
Qed.

Lemma subscribe_stream_known st stream :
  stream ∈ _subscribed_streams (tracker st) →
  _subscribe_stream stream st = (Ok tt, st).
Proof.
  intros H. unfold _subscribe_stream. unfold_monad. by rewrite decide_True.
Qed.

(** A call with new addresses on an open transport: one request with the
    new addresses, tracked for replay. *)
Lemma subscribe_accounts_sends st addresses :
  is_connected (connection st) = true →
  let new_addresses :=
    filter (λ addr, addr ∉ _subscribed_accounts (tracker st)) addresses in
  new_addresses ≠ [] →
  subscribe_accounts addresses st =
    (Ok tt,
     {| connection :=
          set_subscriptions
            (_pending_subscriptions (connection st) ++ [Subscribe None (Some new_addresses)])
            (connection st);
        tracker :=
          {| _subscribed_streams := _subscribed_streams (tracker st);
             _subscribed_accounts :=
               _subscribed_accounts (tracker st) ∪ list_to_set new_addresses |};
        world := world st;
        effects := effects st ++ [ESend (Subscribe None (Some new_addresses))] |}).
Proof.
  intros Hc new_addresses Hnew. unfold subscribe_accounts.
  unfold mbind, M_bind, bind, get_tracker. simpl. fold new_addresses.
  rewrite decide_False by done.
  rewrite send_connected by done. reflexivity.
Qed.

Lemma subscribe_stream_sends st stream :
  is_connected (connection st) = true →
  stream ∉ _subscribed_streams (tracker st) →
  _subscribe_stream stream st =
    (Ok tt,
     {| connection :=
          set_subscriptions
            (_pending_subscriptions (connection st) ++ [Subscribe (Some [stream]) None])
            (connection st);
        tracker :=
          {| _subscribed_streams := _subscribed_streams (tracker st) ∪ {[stream]};
             _subscribed_accounts := _subscribed_accounts (tracker st) |};
        world := world st;
        effects := effects st ++ [ESend (Subscribe (Some [stream]) None)] |}).
Proof.
  intros Hc Hs. unfold _subscribe_stream.
  unfold mbind, M_bind, bind, get_tracker. simpl.
  rewrite decide_False by done.
  rewrite send_connected by done. reflexivity.
Qed.

Lemma unsubscribe_stream_sends st stream :
  is_connected (connection st) = true →
  stream ∈ _subscribed_streams (tracker st) →
  unsubscribe_stream stream st =
    (Ok tt,
     {| connection := connection st;
        tracker :=
          {| _subscribed_streams := _subscribed_streams (tracker st) ∖ {[stream]};
             _subscribed_accounts := _subscribed_accounts (tracker st) |};
        world := world st;
        effects := effects st ++ [ESend (Unsubscribe (Some [stream]) None)] |}).
Proof.
  intros Hc Hs. unfold unsubscribe_stream.
  unfold mbind, M_bind, bind, get_tracker. simpl.
  rewrite decide_False by (intros Hn; by apply Hn).
  rewrite send_connected by done. reflexivity.
Qed.

Lemma unsubscribe_account_sends st addr :
  is_connected (connection st) = true →
  addr ∈ _subscribed_accounts (tracker st) →
  unsubscribe_account addr st =
    (Ok tt,
     {| connection := connection st;
        tracker :=
          {| _subscribed_streams := _subscribed_streams (tracker st);
             _subscribed_accounts := _subscribed_accounts (tracker st) ∖ {[addr]} |};
        world := world st;
        effects := effects st ++ [ESend (Unsubscribe None (Some [addr]))] |}).
Proof.
  intros Hc Hs. unfold unsubscribe_account.
  unfold mbind, M_bind, bind, get_tracker. simpl.
  rewrite decide_False by (intros Hn; by apply Hn).
  rewrite send_connected by done. reflexivity.
Qed.

(** ** C4 *)

(** C4, with the scenario on an open transport and new addresses.  In
    every state, [subscribe_accounts] with addresses that are all
    subscribed returns without a network call and leaves tracker and replay
    list as they were, and so does [_subscribe_stream] with a subscribed
    stream; neither needs anything of the other set or of the transport.
    On an open transport, with [A] and [B] distinct and neither subscribed,
    [subscribe_accounts([A])] followed by [subscribe_accounts([A, B])]
    sends exactly two subscribe requests, the first with [A] and the
    second with [B] alone, both tracked for replay; and
    [subscribe_accounts([A])] twice sends exactly one. *)
Theorem subscribe_sends_only_new :
  (∀ st addresses,
     (∀ a, a ∈ addresses → a ∈ _subscribed_accounts (tracker st)) →
     subscribe_accounts addresses st = (Ok tt, st)) ∧
  (∀ st stream,
     stream ∈ _subscribed_streams (tracker st) →
     _subscribe_stream stream st = (Ok tt, st)) ∧
  (∀ st A B,
     is_connected (connection st) = true →
     A ∉ _subscribed_accounts (tracker st) →
     B ∉ _subscribed_accounts (tracker st) →
     A ≠ B →
     ∃ st', subscribe_twice A B st = (Ok tt, st') ∧
            effects st' = effects st ++ [ESend (Subscribe None (Some [A]));
                                         ESend (Subscribe None (Some [B]))] ∧
            _pending_subscriptions (connection st') =
              _pending_subscriptions (connection st) ++
                [Subscribe None (Some [A]); Subscribe None (Some [B])] ∧
            _subscribed_accounts (tracker st') =
              _subscribed_accounts (tracker st) ∪ {[A; B]}) ∧
  (∀ st A,
     is_connected (connection st) = true →
     A ∉ _subscribed_accounts (tracker st) →
     ∃ st', (subscribe_accounts [A];; subscribe_accounts [A]) st = (Ok tt, st') ∧
            effects st' = effects st ++ [ESend (Subscribe None (Some [A]))] ∧
            _pending_subscriptions (connection st') =
              _pending_subscriptions (connection st) ++ [Subscribe None (Some [A])]).
Proof.
  split; [intros st addresses Hknown; by apply subscribe_accounts_known|].
  split; [intros st stream Hstream; by apply subscribe_stream_known|].
  split.
  - intros st A B Hc HA HB HAB.
    unfold subscribe_twice. unfold mbind, M_bind, bind.
    rewrite subscribe_accounts_sends; [|done|]; simpl.
    2:{ rewrite filter_cons_True by done. done. }
    rewrite filter_cons_True, filter_nil by done.
    assert (HA' : ¬ (A ∉ _subscribed_accounts (tracker st) ∪ list_to_set [A])).
    { intros Hn. apply Hn. apply elem_of_union. right.
      apply elem_of_list_to_set. by left. }
    assert (HB' : B ∉ _subscribed_accounts (tracker st) ∪ list_to_set [A]).
    { intros [Hin | Hin]%elem_of_union; [done|].
      apply elem_of_list_to_set, list_elem_of_singleton in Hin. done. }
    rewrite subscribe_accounts_sends; [|done|]; simpl.
    all: rewrite filter_cons_False by done.
    all: rewrite filter_cons_True by done.
    all: rewrite filter_nil.
    2: done.
    eexists. split; [reflexivity|]. simpl.
    rewrite <- !(assoc_L (++)). simpl. repeat split.
    by rewrite !(right_id_L ∅ (∪)), <- (assoc_L (∪)).
  - intros st A Hc HA. unfold mbind, M_bind, bind.
    rewrite subscribe_accounts_sends; [|done|]; simpl.
    2:{ rewrite filter_cons_True by done. done. }
    rewrite filter_cons_True, filter_nil by done.
    rewrite subscribe_accounts_known.
    + eexists. split; [reflexivity|]. done.
    + intros a Ha. apply list_elem_of_singleton in Ha as ->.
      apply elem_of_union. right. apply elem_of_union. left.
      by apply elem_of_singleton.
Qed.

End Tracker.

(** The idempotence on a tracker that has an account and no stream
    subscribed, and the two scenarios on an open transport. *)
Lemma subscribe_sends_only_new_witness :
  subscribe_accounts ["rABC"; "rABC"] accounts_only = (Ok tt, accounts_only) ∧
  _subscribe_stream LEDGER online = (Ok tt, online) ∧
  sent (effects (subscribe_twice "rXYZ" "rUVW" online).2) =
    [Subscribe None (Some ["rXYZ"]); Subscribe None (Some ["rUVW"])] ∧
  sent (effects ((subscribe_accounts ["rXYZ"];; subscribe_accounts ["rXYZ"]) online).2) =
    [Subscribe None (Some ["rXYZ"])].
Proof.
  destruct (subscribe_sends_only_new (World := unit)) as (H1 & H2 & H3 & H4).
  split; [|split; [|split]].
  - apply H1. intros a Ha.
    repeat (apply elem_of_cons in Ha as [-> | Ha]; [by vm_compute|]). inversion Ha.
  - apply H2. by vm_compute.
  - destruct (H3 online "rXYZ" "rUVW") as (st' & Hrun & He & _);
      [reflexivity | by vm_compute | by vm_compute | discriminate |].
    rewrite Hrun. simpl. rewrite He. reflexivity.
  - destruct (H4 online "rXYZ") as (st' & Hrun & He & _);
      [reflexivity | by vm_compute |].
    rewrite Hrun. simpl. rewrite He. reflexivity.
Defined.

(** Where [A] is subscribed already the two calls send one request, not
    two: the scenario of C4 does not hold in every tracker state. *)
Lemma subscribe_twice_counterexample :
  ¬ ∀ (st : State unit) (A B : string),
      ∃ st'', subscribe_twice A B st = (Ok tt, st'') ∧
              effects st'' = effects st ++ [ESend (Subscribe None (Some [A]));
                                            ESend (Subscribe None (Some [B]))].
Proof.
  intros H. destruct (H online "rABC" "rXYZ") as (st'' & Hrun & He).
  vm_compute in Hrun. injection Hrun as <-. vm_compute in He. discriminate He.
Qed.

(** * The replay list across individual unsubscriptions *)

Section Replay.

Context {World : Type}.

Implicit Types (st : State World) (req : Request).

Local Abbreviation pending st := (_pending_subscriptions (connection st)).

(** An untracked [send] leaves the replay list alone, whether it goes out
    or raises. *)
Lemma send_untracked_pending st req (k : M World unit) :
  (∀ st', pending (k st').2 = pending st') →
  pending ((send req false;; k) st).2 = pending st.
Proof.
  intros Hk. unfold mbind, M_bind, bind.
  destruct (send_cases st req false) as [-> | [_ ->]]; simpl; [done|].
  by rewrite Hk.
Qed.

Lemma unsubscribe_stream_pending st stream :
  pending (unsubscribe_stream stream st).2 = pending st.
Proof.
  unfold unsubscribe_stream. unfold mbind at 1, M_bind at 1, bind at 1, get_tracker.
  destruct (decide _); [done|]. by apply send_untracked_pending.
Qed.

Lemma unsubscribe_account_pending st addr :
  pending (unsubscribe_account addr st).2 = pending st.
Proof.
  unfold unsubscribe_account. unfold mbind at 1, M_bind at 1, bind at 1, get_tracker.
  destruct (decide _); [done|]. by apply send_untracked_pending.
Qed.

(** A tracked [send] appends to the replay list, or raises and leaves it. *)
Lemma send_tracked_pending st req (k : M World unit) :
  (∀ st', pending (k st').2 = pending st') →
  ∃ more, pending ((send req true;; k) st).2 = pending st ++ more.
Proof.
  intros Hk. unfold mbind, M_bind, bind.
  destruct (send_cases st req true) as [-> | [_ ->]]; simpl.
  - exists []. by rewrite app_nil_r.
  - rewrite Hk. simpl. eauto.
Qed.

(** No call of the tracker other than [unsubscribe_all], and no pass of the
    supervisor loop, takes a request off the replay list. *)
Lemma run_client_op_pending op st :
  ∃ more, pending (run_client_op op st) = pending st ++ more.
Proof.
  assert (Hnil : ∀ st, ∃ more, pending st = pending st ++ more).
  { intros st0. exists []. by rewrite app_nil_r. }
  destruct op as [stream | stream | addresses | addr | script]; simpl.
  - unfold _subscribe_stream. unfold mbind at 1, M_bind at 1, bind at 1, get_tracker.
    destruct (decide _); [apply Hnil|]. by apply send_tracked_pending.
  - rewrite unsubscribe_stream_pending. apply Hnil.
  - unfold subscribe_accounts. unfold mbind at 1, M_bind at 1, bind at 1, get_tracker.
    destruct (decide _); [apply Hnil|]. by apply send_tracked_pending.
  - rewrite unsubscribe_account_pending. apply Hnil.
  - destruct (connect_loop_trace script st)
      as (status & st' & -> & _ & (_ & _ & _ & Hp) & _).
    simpl. rewrite Hp. apply Hnil.
Qed.

Lemma run_client_ops_pending ops : ∀ st,
  ∃ more, pending (run_client_ops ops st) = pending st ++ more.
Proof.
  unfold run_client_ops. induction ops as [|op ops IH]; intros st; simpl.
  - exists []. by rewrite app_nil_r.
  - destruct (run_client_op_pending op st) as [m1 H1].
    destruct (IH (run_client_op op st)) as [m2 H2].
    exists (m1 ++ m2). by rewrite H2, H1, (assoc_L (++)).
Qed.

(** [unsubscribe_all] on an open transport empties the replay list. *)
Lemma unsubscribe_all_clears st :
  is_connected (connection st) = true → pending (unsubscribe_all st).2 = [].
Proof.
  intros Hc. unfold unsubscribe_all.
  unfold mbind, M_bind, bind, get_tracker, clear_subscriptions, update_connection.
  destruct (decide (_subscribed_streams (tracker st) ≠ ∅)); simpl.
  - rewrite send_connected by done. simpl.
    destruct (decide (_subscribed_accounts (tracker st) ≠ ∅)); simpl; [|done].
    rewrite send_connected by done. done.
  - unfold mret, M_ret, ret.
    destruct (decide (_subscribed_accounts (tracker st) ≠ ∅)); simpl; [|done].
    rewrite send_connected by done. done.
Qed.

(** Every pass that opens the transport sends the whole replay list. *)
Lemma reconnect_replays reads ending st :
  effects (_connect_once (Opened reads ending) st).2 =
    effects st ++ EOpen (url (connection st)) true :: (ESend <$> pending st).
Proof.
  destruct (connect_once_opened reads ending st) as (r & st' & -> & _ & _ & _ & _ & He).
  exact He.
Qed.

Lemma sent_app es1 es2 : sent (es1 ++ es2) = sent es1 ++ sent es2.
Proof. apply omap_app. Qed.

Lemma sent_sends (requests : list Request) : sent (ESend <$> requests) = requests.
Proof.
  induction requests as [|r l IH]; [done|].
  change (sent (ESend <$> r :: l)) with (r :: sent (ESend <$> l)). by rewrite IH.
Qed.

(** ** C10 *)

(** C10.  [unsubscribe_stream] and [unsubscribe_account] leave the replay
    list of the supervisor as it is, in every state; [unsubscribe_all] on
    an open transport empties it.  So when, on an open transport, a stream
    and an account are subscribed and then unsubscribed one by one, they
    leave the tracker's sets and the unsubscribe requests go out, but both
    subscribe requests stay on the replay list through any later calls of
    the tracker other than [unsubscribe_all] and any passes of the
    supervisor loop, and the next pass that opens a transport sends them
    again. *)
Theorem unsubscribe_keeps_replay_list st stream addr ops reads ending :
  is_connected (connection st) = true →
  stream ∉ _subscribed_streams (tracker st) →
  addr ∉ _subscribed_accounts (tracker st) →
  let sub_stream := Subscribe (Some [stream]) None in
  let sub_account := Subscribe None (Some [addr]) in
  let st1 := (subscribe_then_unsubscribe stream addr st).2 in
  let st2 := run_client_ops ops st1 in
  let st3 := (_connect_once (Opened reads ending) st2).2 in
  (∀ st' s a, pending (unsubscribe_stream s st').2 = pending st' ∧
              pending (unsubscribe_account a st').2 = pending st') ∧
  pending (unsubscribe_all st).2 = [] ∧
  ((stream ∉ _subscribed_streams (tracker st1)) ∧
   (addr ∉ _subscribed_accounts (tracker st1))) ∧
  sent (effects st1) =
    sent (effects st) ++ [sub_stream; sub_account;
                          Unsubscribe (Some [stream]) None;
                          Unsubscribe None (Some [addr])] ∧
  pending st1 = pending st ++ [sub_stream; sub_account] ∧
  (sub_stream ∈ pending st2 ∧ sub_account ∈ pending st2) ∧
  sent (effects st3) = sent (effects st2) ++ pending st2.
Proof.
  intros Hc Hs Ha sub_stream sub_account st1 st2 st3.
  assert (Hst1 : st1 =
    {| connection := set_subscriptions (pending st ++ [sub_stream; sub_account])
                       (connection st);
       tracker := {| _subscribed_streams :=
                       (_subscribed_streams (tracker st) ∪ {[stream]}) ∖ {[stream]};
                     _subscribed_accounts :=
                       (_subscribed_accounts (tracker st) ∪ list_to_set [addr]) ∖ {[addr]} |};
       world := world st;
       effects := effects st ++ [ESend sub_stream; ESend sub_account;
                                 ESend (Unsubscribe (Some [stream]) None);
                                 ESend (Unsubscribe None (Some [addr]))] |}).
  { subst st1. unfold subscribe_then_unsubscribe. unfold mbind, M_bind, bind.
    rewrite subscribe_stream_sends by done.
    rewrite subscribe_accounts_sends; [|done|]; simpl.
    all: rewrite filter_cons_True, filter_nil by done.
    2: done.
    rewrite unsubscribe_stream_sends; [|done|]; simpl.
    2:{ apply elem_of_union. right. by apply elem_of_singleton. }
    rewrite unsubscribe_account_sends; [|done|]; simpl.
    2:{ apply elem_of_union. right. apply elem_of_union. left.
        by apply elem_of_singleton. }
    rewrite <- !(assoc_L (++)). reflexivity. }
  split; [intros; split; [apply unsubscribe_stream_pending
                         | apply unsubscribe_account_pending]|].
  split; [by apply unsubscribe_all_clears|].
  split.
  { rewrite Hst1. simpl. split.
    - intros [_ Hn]%elem_of_difference. apply Hn. by apply elem_of_singleton.
    - intros [_ Hn]%elem_of_difference. apply Hn. by apply elem_of_singleton. }
  split; [rewrite Hst1; simpl; by rewrite sent_app|].
  split; [by rewrite Hst1|].
  split.
  { destruct (run_client_ops_pending ops st1) as [more Hmore].
    subst st2. rewrite Hmore, Hst1. simpl. split.
    - apply elem_of_app. left. apply elem_of_app. right. by left.
    - apply elem_of_app. left. apply elem_of_app. right. right. by left. }
  subst st3. rewrite reconnect_replays, sent_app. simpl. by rewrite sent_sends.
Qed.

End Replay.

Lemma unsubscribe_keeps_replay_list_witness :
  let st1 := (subscribe_then_unsubscribe TRANSACTIONS "rXYZ" online).2 in
  let st2 := run_client_ops [SubscribeAccounts ["rUVW"]; UnsubscribeStream LEDGER;
                             Supervise [failed_round (TransportError "refused")]] st1 in
  let st3 := (_connect_once (Opened [] Exhausted) st2).2 in
  (_subscribed_streams (tracker st1) = {[LEDGER]} ∧
   _subscribed_accounts (tracker st1) = {["rABC"]}) ∧
  Subscribe (Some [TRANSACTIONS]) None ∈ sent (effects st3) ∧
  Subscribe None (Some ["rXYZ"]) ∈ sent (effects st3).
Proof.
  intros st1 st2 st3.
  destruct (unsubscribe_keeps_replay_list online TRANSACTIONS "rXYZ"
              [SubscribeAccounts ["rUVW"]; UnsubscribeStream LEDGER;
               Supervise [failed_round (TransportError "refused")]] [] Exhausted)
    as (_ & _ & _ & _ & _ & [H1 H2] & H3).
  - reflexivity.
  - by vm_compute.
  - by vm_compute.
  - split; [split; by vm_compute|].
    fold st1 st2 st3 in H1, H2, H3. rewrite H3.
    split; apply elem_of_app; right; assumption.
Defined.

(** * Further properties of the state store *)

(** ** Wallets and accounts *)

(** X1.  [add_wallet] stores the wallet under its address, replacing an
    earlier entry, and creates an account with a zero balance only when the
    address has none: an account that exists keeps its balance and previous
    balance.  Other wallets and accounts, and the transactions, are not
    touched. *)
Theorem add_wallet_keeps_existing_account s w src lbl now now' :
  let s' := (add_wallet s w src lbl now now').1 in
  get_wallet s' w = Some (WalletInfo.mk w src lbl now) ∧
  accounts s' !! w =
    Some (default (new_AccountState w (from_drops 0) now') (accounts s !! w)) ∧
  (∀ a, a ≠ w → get_wallet s' a = get_wallet s a ∧ accounts s' !! a = accounts s !! a) ∧
  pending_transactions s' = pending_transactions s ∧
  recent_transactions s' = recent_transactions s.
Proof.
  unfold add_wallet, get_wallet. simpl.
  destruct (decide (w ∉ dom (accounts s))) as [Hn | Hin]; simpl.
  - apply not_elem_of_dom in Hn. rewrite Hn. simpl.
    rewrite !lookup_insert_eq. repeat split; try done.
    + by rewrite lookup_insert_ne.
    + by rewrite lookup_insert_ne.
  - apply dec_stable in Hin. apply elem_of_dom in Hin as [acct Hacct].
    rewrite Hacct. simpl. rewrite lookup_insert_eq. repeat split; try done.
    by rewrite lookup_insert_ne.
Qed.

Lemma remove_wallet_lookup s a b :
  get_wallet (remove_wallet s a) b = if decide (a = b) then None else get_wallet s b.
Proof.
  unfold remove_wallet, get_wallet.
  destruct (decide (a ∈ dom (wallets s))) as [Hin | Hn]; simpl.
  - rewrite lookup_delete. by destruct (decide (a = b)).
  - destruct (decide (a = b)) as [<- | ?]; [|done]. by apply not_elem_of_dom.
Qed.

Lemma remove_wallet_accounts s a : accounts (remove_wallet s a) = accounts s.
Proof. unfold remove_wallet. by destruct (decide _). Qed.

Lemma remove_account_lookup s a b :
  accounts (remove_account s a) !! b = if decide (a = b) then None else accounts s !! b.
Proof.
  unfold remove_account. rewrite remove_wallet_accounts.
  destruct (decide (a ∈ dom (accounts s))) as [Hin | Hn]; simpl.
  - rewrite lookup_delete. by destruct (decide (a = b)).
  - destruct (decide (a = b)) as [<- | ?]; [|done]. by apply not_elem_of_dom.
Qed.

(** X2.  [remove_wallet] forgets the wallet and keeps every account, the
    one of the address included; [remove_account] forgets both the account
    and the wallet of the address.  Other addresses are not touched, and
    removing an address that is not there changes nothing. *)
Theorem removal_of_wallets_and_accounts s a :
  (get_wallet (remove_wallet s a) a = None ∧
   accounts (remove_wallet s a) = accounts s) ∧
  (accounts (remove_account s a) !! a = None ∧
   get_wallet (remove_account s a) a = None) ∧
  (∀ b, b ≠ a →
     get_wallet (remove_wallet s a) b = get_wallet s b ∧
     get_wallet (remove_account s a) b = get_wallet s b ∧
     accounts (remove_account s a) !! b = accounts s !! b) ∧
  (get_wallet s a = None → remove_wallet s a = s) ∧
  (get_wallet s a = None → accounts s !! a = None → remove_account s a = s).
Proof.
  split; [|split; [|split; [|split]]].
  - split; [|apply remove_wallet_accounts].
    rewrite remove_wallet_lookup. by rewrite decide_True.
  - split.
    + rewrite remove_account_lookup. by rewrite decide_True.
    + unfold remove_account. rewrite remove_wallet_lookup. by rewrite decide_True.
  - intros b Hb. rewrite remove_account_lookup, remove_wallet_lookup.
    rewrite !decide_False by done. repeat split.
    unfold remove_account. rewrite remove_wallet_lookup, decide_False by done.
    by destruct (decide _).
  - intros Hw. unfold remove_wallet. rewrite decide_False; [done|].
    by apply not_elem_of_dom.
  - intros Hw Ha. unfold remove_account.
    rewrite decide_False by (by apply not_elem_of_dom).
    unfold remove_wallet. rewrite decide_False; [done|]. by apply not_elem_of_dom.
Qed.

(** X3.  [add_account] never overwrites: for a tracked address it returns
    the account as it is and leaves the store alone, whatever balance is
    passed; for a new address it creates the account with the balance
    given, or zero when none is given, and no previous balance. *)
Theorem add_account_never_overwrites s a bal now :
  add_account s a bal now =
    match accounts s !! a with
    | Some acct => (s, Some acct)
    | None =>
        let acct := {| address := a; balance := default (from_drops 0) bal;
                       previous_balance := None; sequence := 0;
                       last_updated := now |} in
        (set_accounts s (<[a := acct]> (accounts s)), Some acct)
    end.
Proof.
  unfold add_account.
  destruct (accounts s !! a) as [acct|] eqn:Ha.
  - rewrite decide_False; [by rewrite Ha|].
    intros Hn. apply not_elem_of_dom in Hn. congruence.
  - rewrite decide_True by (by apply not_elem_of_dom).
    simpl. by rewrite lookup_insert_eq.
Qed.

(** X4.  The previous balance lives in the account: after
    [update_account_balance(a, B1)], removing the account and updating it
    to [B2] gives an account without previous balance and without balance
    change, while removing only the wallet in between keeps [B1] as the
    previous balance. *)
Theorem removing_an_account_forgets_its_history s a B1 B2 t1 t2 :
  (∃ acct,
     accounts (update_account_balance
                 (remove_account (update_account_balance s a B1 t1) a) a B2 t2) !! a
       = Some acct ∧
     balance acct = B2 ∧ previous_balance acct = None ∧ balance_change acct = None) ∧
  (∃ acct,
     accounts (update_account_balance
                 (remove_wallet (update_account_balance s a B1 t1) a) a B2 t2) !! a
       = Some acct ∧
     balance acct = B2 ∧ previous_balance acct = Some B1 ∧
     balance_change acct = Some (from_drops (drops B2 - drops B1))).
Proof.
  split.
  - unfold update_account_balance at 1.
    rewrite remove_account_lookup, decide_True by done. simpl.
    rewrite lookup_insert_eq. eexists. split; [reflexivity|]. done.
  - unfold update_account_balance at 1.
    rewrite remove_wallet_accounts.
    assert (∃ acct, accounts (update_account_balance s a B1 t1) !! a = Some acct ∧
                    balance acct = B1) as (acct & -> & Hb).
    { unfold update_account_balance.
      destruct (accounts s !! a); simpl; rewrite lookup_insert_eq; eauto. }
    simpl. rewrite lookup_insert_eq. eexists. split; [reflexivity|].
    simpl. rewrite Hb. repeat split.
    unfold balance_change, xrp_sub. simpl. by rewrite Hb.
Qed.

(** ** Looking transactions up *)

Lemma first_match_at {A} (p : A → bool) l1 x l2 i :
  Forall (λ y, p y = false) l1 → p x = true →
  Py.first_match p (l1 ++ x :: l2) i = Some ((i + length l1)%nat, x).
Proof.
  intros Hl1 Hx. revert i. induction Hl1 as [|y l1 Hy _ IH]; intros i; simpl.
  - rewrite Hx. do 2 f_equal. lia.
  - rewrite Hy, IH. do 2 f_equal. lia.
Qed.

Lemma absent_hash h (l : list TransactionState) :
  Forall (λ y, hash_is h y = false) l ↔ h ∉ tx_hash <$> l.
Proof.
  rewrite <- not_pending_Forall, list_elem_of_fmap. split.
  - intros H (tx & -> & Htx). by apply (H tx).
  - intros H tx Htx Heq. apply H. exists tx. done.
Qed.

(** X5.  [get_transaction] answers [None] exactly when no record has the
    hash, pending or in the history; otherwise it answers a record with the
    hash, a pending one if there is any, and one of the history only when
    none is pending. *)
Theorem get_transaction_finds s h :
  match get_transaction s h with
  | None => h ∉ hashes s
  | Some tx =>
      tx_hash tx = h ∧
      (tx ∈ pending_transactions s ∨
       ((h ∉ tx_hash <$> pending_transactions s) ∧ tx ∈ recent_transactions s))
  end.
Proof.
  unfold get_transaction.
  pose proof (first_match_split (hash_is h) (pending_transactions s) 0) as Hp.
  destruct (Py.first_match _ (pending_transactions s) _) as [[i tx]|].
  - destruct Hp as (l1 & l2 & Hl & _ & _ & Hh). apply hash_is_true in Hh.
    split; [done|]. left. rewrite Hl. apply elem_of_app. right. by left.
  - pose proof (first_match_split (hash_is h) (recent_transactions s) 0) as Hr.
    apply absent_hash in Hp.
    destruct (Py.first_match _ (recent_transactions s) _) as [[i tx]|]; simpl.
    + destruct Hr as (l1 & l2 & Hl & _ & _ & Hh). apply hash_is_true in Hh.
      split; [done|]. right. split; [done|].
      rewrite Hl. apply elem_of_app. right. by left.
    + apply absent_hash in Hr. unfold hashes. rewrite fmap_app.
      intros [?|?]%elem_of_app; done.
Qed.

(** X6.  When no pending record has the hash, the record returned by
    [add_pending_transaction] is the one that [get_transaction] finds,
    whatever the capacity; and with a capacity of at least one, after
    [mark_transaction_validated] [get_transaction] finds that record in its
    validated form, whatever the history held. *)
Theorem get_transaction_follows_the_record s h a idx :
  (∀ tx, tx ∈ pending_transactions s → tx_hash tx ≠ h) →
  let added := add_pending_transaction s h a in
  get_transaction added.1 h = Some added.2 ∧
  (1 ≤ max_recent_transactions s →
   ∃ s', mark_transaction_validated added.1 h idx = Some s' ∧
         get_transaction s' h = Some (mark_validated added.2 idx)).
Proof.
  intros Hpend. apply not_pending_Forall in Hpend. simpl.
  set (tx := {| tx_hash := h; status := PENDING |}).
  split.
  - unfold get_transaction. simpl.
    rewrite (first_match_at (hash_is h) (pending_transactions s) tx []); try done.
    by apply hash_is_true.
  - intros Hmax.
    erewrite (mark_transaction_validated_found _ h idx (pending_transactions s) tx []);
      [| reflexivity | done | reflexivity].
    eexists. split; [reflexivity|].
    match goal with
    | |- context [trim_history ?x] =>
        destruct (trim_history_head x (mark_validated tx idx) (recent_transactions s))
          as (Hp & k & Hr); [exact Hmax | reflexivity |]
    end.
    unfold get_transaction. rewrite Hp, Hr. simpl. rewrite app_nil_r.
    rewrite first_match_None by done. simpl.
    unfold hash_is at 1. simpl. by rewrite String.eqb_refl.
Qed.

(** A store of capacity zero, where the lookup after the addition still
    finds the record, and a store of the default capacity. *)
Lemma get_transaction_follows_the_record_witness :
  (let added := add_pending_transaction (set_capacity 0 (received 3)) "ABCD" payment in
   get_transaction added.1 "ABCD" = Some added.2) ∧
  (let added := add_pending_transaction (received 3) "ABCD" payment in
   get_transaction added.1 "ABCD" = Some added.2 ∧
   ∃ s', mark_transaction_validated added.1 "ABCD" 42 = Some s' ∧
         get_transaction s' "ABCD" = Some (mark_validated added.2 42)).
Proof.
  split.
  - apply (get_transaction_follows_the_record
             (set_capacity 0 (received 3)) "ABCD" payment 42).
    intros tx Htx. vm_compute in Htx. inversion Htx.
  - destruct (get_transaction_follows_the_record (received 3) "ABCD" payment 42)
      as [H1 H2].
    + intros tx Htx. vm_compute in Htx. inversion Htx.
    + split; [exact H1|]. apply H2. vm_compute. discriminate.
Defined.

(** ** Statuses *)

Lemma apply_op_total s op : is_Some (apply_op s op).
Proof.
  destruct op; simpl; eauto using mark_transaction_validated_total,
    mark_transaction_failed_total.
Qed.

Lemma trim_history_Forall (P : TransactionState → Prop) s :
  Forall P (recent_transactions s) → Forall P (recent_transactions (trim_history s)).
Proof.
  intros H. destruct (trim_history_prefix s) as (_ & k & ->). by apply Forall_take.
Qed.

Lemma apply_op_status s op s' :
  status_consistent s → apply_op s op = Some s' → status_consistent s'.
Proof.
  intros [Hp Hr] Hop. destruct op as [h a | h idx | h error | h idx a]; simpl in Hop.
  - injection Hop as <-. split; [|done]. simpl.
    apply Forall_app. split; [done|]. by repeat constructor.
  - destruct (pending_cases s h) as [H | (l1 & tx & l2 & Hl & Hl1 & Hh)].
    + rewrite mark_transaction_validated_absent in Hop by done. by injection Hop as <-.
    + erewrite mark_transaction_validated_found in Hop by eauto. injection Hop as <-.
      rewrite Hl in Hp. apply Forall_app in Hp as [Hp1 [Htx Hp2]%Forall_cons].
      split.
      * match goal with |- context [trim_history ?x] =>
          destruct (trim_history_prefix x) as (-> & _) end.
        simpl. apply Forall_app. done.
      * apply trim_history_Forall. simpl. constructor; [|done].
        left. destruct Htx as (_ & _ & He). simpl. eauto.
  - destruct (pending_cases s h) as [H | (l1 & tx & l2 & Hl & Hl1 & Hh)].
    + rewrite mark_transaction_failed_absent in Hop by done. by injection Hop as <-.
    + erewrite mark_transaction_failed_found in Hop by eauto. injection Hop as <-.
      rewrite Hl in Hp. apply Forall_app in Hp as [Hp1 [Htx Hp2]%Forall_cons].
      split; simpl.
      * apply Forall_app. done.
      * constructor; [|done]. right. destruct Htx as (_ & Hi & _). simpl. eauto.
  - injection Hop as <-. split.
    + unfold add_received_transaction. simpl.
      match goal with |- context [trim_history ?x] =>
        destruct (trim_history_prefix x) as (-> & _) end.
      done.
    + apply trim_history_Forall. simpl. constructor; [|done]. left. simpl. eauto.
Qed.

(** X7.  Every run of the public transaction operations from the empty
    store completes without raising, and in the store it reaches every
    pending record has status [PENDING] with neither ledger index nor error
    message, and every record of the history is [VALIDATED] with a ledger
    index or [FAILED] with an error message. *)
Theorem runs_keep_records_where_their_status_says ops :
  ∃ s, run_ops ops new_store = Some s ∧ status_consistent s.
Proof.
  assert (H0 : status_consistent new_store) by (split; constructor).
  revert H0. generalize new_store as s0.
  induction ops as [|op ops IH]; intros s0 H0; simpl.
  - eauto.
  - destruct (apply_op_total s0 op) as [s1 Hs1]. rewrite Hs1. simpl.
    apply IH. by eapply apply_op_status.
Qed.

Lemma count_hash_zero h (l : list TransactionState) :
  count_hash h l = 0%nat → Forall (λ y, hash_is h y = false) l.
Proof.
  unfold count_hash. induction l as [|x l IH]; intros H; [constructor|].
  destruct (decide (tx_hash x = h)) as [Hx | Hx].
  - rewrite filter_cons_True in H by done. discriminate.
  - rewrite filter_cons_False in H by done.
    constructor; [by apply hash_is_false | by apply IH].
Qed.

Lemma count_hash_app h (l1 l2 : list TransactionState) :
  count_hash h (l1 ++ l2) = (count_hash h l1 + count_hash h l2)%nat.
Proof. unfold count_hash. by rewrite filter_app, length_app. Qed.

Lemma count_hash_cons h tx (l : list TransactionState) :
  count_hash h (tx :: l) =
    ((if decide (tx_hash tx = h) then 1 else 0) + count_hash h l)%nat.
Proof.
  unfold count_hash. destruct (decide (tx_hash tx = h)).
  - by rewrite filter_cons_True.
  - by rewrite filter_cons_False.
Qed.

(** X8.  A record changes status once: when at most one pending record has
    the hash, a second [mark_transaction_validated] or
    [mark_transaction_failed] with that hash, after either of them, leaves
    the store as the first left it. *)
Theorem settled_record_is_final s h idx idx' error error' :
  (count_hash h (pending_transactions s) ≤ 1)%nat →
  ∃ s1 s2,
    mark_transaction_validated s h idx = Some s1 ∧
    mark_transaction_failed s h error = Some s2 ∧
    mark_transaction_validated s1 h idx' = Some s1 ∧
    mark_transaction_failed s1 h error' = Some s1 ∧
    mark_transaction_validated s2 h idx' = Some s2 ∧
    mark_transaction_failed s2 h error' = Some s2.
Proof.
  intros Hcount.
  destruct (pending_cases s h) as [H | (l1 & tx & l2 & Hl & Hl1 & Hh)].
  - exists s, s.
    rewrite !mark_transaction_validated_absent, !mark_transaction_failed_absent by done.
    done.
  - assert (Hrest : Forall (λ y, hash_is h y = false) (l1 ++ l2)).
    { apply Forall_app. split; [done|]. apply count_hash_zero.
      rewrite Hl, count_hash_app, count_hash_cons, decide_True in Hcount by done. lia. }
    erewrite mark_transaction_validated_found, mark_transaction_failed_found by eauto.
    do 2 eexists. split; [reflexivity|]. split; [reflexivity|].
    match goal with |- context [trim_history ?x] =>
      pose proof (trim_history_prefix x) as (Hq & _) end.
    simpl in Hq.
    repeat split;
      (apply mark_transaction_validated_absent || apply mark_transaction_failed_absent);
      rewrite ?Hq; done.
Qed.

Lemma settled_record_is_final_witness :
  let s := (add_pending_transaction (received 3) "ABCD" payment).1 in
  ∃ s1 s2,
    mark_transaction_validated s "ABCD" 42 = Some s1 ∧
    mark_transaction_failed s "ABCD" "tecNO_DST" = Some s2 ∧
    mark_transaction_validated s1 "ABCD" 43 = Some s1 ∧
    mark_transaction_failed s1 "ABCD" "tecPATH_DRY" = Some s1 ∧
    mark_transaction_validated s2 "ABCD" 43 = Some s2 ∧
    mark_transaction_failed s2 "ABCD" "tecPATH_DRY" = Some s2.
Proof.
  apply (settled_record_is_final
           (add_pending_transaction (received 3) "ABCD" payment).1
           "ABCD" 42 43 "tecNO_DST" "tecPATH_DRY").
  vm_compute. lia.
Defined.

(** ** Retention *)

Lemma take_cons_take {A} (n : nat) (x : A) (l : list A) :
  take n (x :: take n l) = take n (x :: l).
Proof. destruct n as [|n]; [done|]. simpl. by rewrite take_take, Nat.min_l by lia. Qed.

Lemma take_app_take {A} (n : nat) (l1 l2 : list A) :
  take n (l1 ++ take n l2) = take n (l1 ++ l2).
Proof.
  rewrite !take_app. f_equal. rewrite take_take. f_equal. lia.
Qed.

Lemma add_received_transaction_recent s h idx a :
  0 ≤ max_recent_transactions s →
  recent_transactions (add_received_transaction s h idx a).1 =
    take (Z.to_nat (max_recent_transactions s))
         (received_record h idx a :: recent_transactions s).
Proof.
  intros Hmax. unfold add_received_transaction, trim_history. simpl.
  destruct (_ >? _) eqn:E; simpl.
  - by rewrite slice_to_nonneg.
  - rewrite take_ge; [done|]. unfold Py.len in E.
    rewrite length_cons in *. rewrite Z.gtb_ltb in E. apply Z.ltb_ge in E. lia.
Qed.

Lemma add_received_transaction_frame s h idx a :
  max_recent_transactions (add_received_transaction s h idx a).1 = max_recent_transactions s ∧
  pending_transactions (add_received_transaction s h idx a).1 = pending_transactions s.
Proof.
  unfold add_received_transaction, trim_history. simpl. by destruct (_ >? _).
Qed.

Lemma receive_all_recent l : ∀ s,
  0 ≤ max_recent_transactions s →
  Py.len (recent_transactions s) ≤ max_recent_transactions s →
  recent_transactions (receive_all s l) =
    take (Z.to_nat (max_recent_transactions s))
         (reverse ((λ '(h, idx, a), received_record h idx a) <$> l)
          ++ recent_transactions s) ∧
  pending_transactions (receive_all s l) = pending_transactions s.
Proof.
  induction l as [|[[h idx] a] l IH]; intros s Hmax Hlen.
  - simpl. split; [|done]. rewrite take_ge; [done|]. unfold Py.len in Hlen. lia.
  - change (receive_all s ((h, idx, a) :: l))
      with (receive_all (add_received_transaction s h idx a).1 l).
    destruct (add_received_transaction_frame s h idx a) as [Hm Hp].
    destruct (IH (add_received_transaction s h idx a).1) as [IHr IHp].
    + by rewrite Hm.
    + rewrite Hm, add_received_transaction_recent by done.
      unfold Py.len. rewrite length_take. lia.
    + rewrite IHr, IHp, Hm, Hp. split; [|done].
      rewrite add_received_transaction_recent by done.
      rewrite take_app_take, fmap_cons, reverse_cons, <- (assoc_L (++)). done.
Qed.

(** X9.  For a store whose history is within a capacity that is not
    negative, after any list of [add_received_transaction] calls the history
    is the newest-first list of the records received followed by the old
    history, cut to the capacity: the latest records are kept, the oldest
    are dropped, and the pending records are not touched. *)
Theorem history_keeps_the_latest s l :
  0 ≤ max_recent_transactions s →
  Py.len (recent_transactions s) ≤ max_recent_transactions s →
  recent_transactions (receive_all s l) =
    take (Z.to_nat (max_recent_transactions s))
         (reverse ((λ '(h, idx, a), received_record h idx a) <$> l)
          ++ recent_transactions s) ∧
  pending_transactions (receive_all s l) = pending_transactions s ∧
  Py.len (recent_transactions (receive_all s l)) ≤ max_recent_transactions s.
Proof.
  intros Hmax Hlen. destruct (receive_all_recent l s Hmax Hlen) as [Hr Hp].
  split; [done|]. split; [done|].
  rewrite Hr. unfold Py.len. rewrite length_take. lia.
Qed.

Lemma history_keeps_the_latest_witness :
  tx_hash <$> recent_transactions
    (receive_all (received 49) [("A1", 7, payment); ("B2", 8, payment); ("C3", 8, payment)])
  = ["C3"; "B2"; "A1"] ++ (pretty <$> reverse (seq 2 47)).
Proof.
  destruct (history_keeps_the_latest (received 49)
              [("A1", 7, payment); ("B2", 8, payment); ("C3", 8, payment)]) as (H & _).
  - vm_compute. discriminate.
  - vm_compute. discriminate.
  - rewrite H. vm_compute. reflexivity.
Defined.

Lemma apply_op_bounded s op s' :
  match op with MarkFailed _ _ => False | _ => True end →
  0 ≤ max_recent_transactions s →
  Py.len (recent_transactions s) ≤ max_recent_transactions s →
  apply_op s op = Some s' →
  max_recent_transactions s' = max_recent_transactions s ∧
  Py.len (recent_transactions s') ≤ max_recent_transactions s.
Proof.
  intros Hop Hmax Hlen Hs'. destruct op as [h a | h idx | h error | h idx a]; simpl in *.
  - by injection Hs' as <-.
  - destruct (pending_cases s h) as [H | (l1 & tx & l2 & Hl & Hl1 & Hh)].
    + rewrite mark_transaction_validated_absent in Hs' by done. by injection Hs' as <-.
    + erewrite mark_transaction_validated_found in Hs' by eauto. injection Hs' as <-.
      split.
      * unfold trim_history. by destruct (_ >? _).
      * by apply (trim_history_length (set_recent (set_pending s _) _)).
  - done.
  - injection Hs' as <-. split.
    + apply add_received_transaction_frame.
    + by apply add_received_transaction_bounded.
Qed.

(** X10.  As long as [mark_transaction_failed] is not called, the history
    stays within the capacity: every run of the other three transaction
    operations from a store whose history fits a capacity that is not
    negative completes and reaches a store whose history fits it too. *)
Theorem history_bounded_without_failures ops : ∀ s,
  never_fails ops →
  0 ≤ max_recent_transactions s →
  Py.len (recent_transactions s) ≤ max_recent_transactions s →
  ∃ s', run_ops ops s = Some s' ∧
        max_recent_transactions s' = max_recent_transactions s ∧
        Py.len (recent_transactions s') ≤ max_recent_transactions s.
Proof.
  induction ops as [|op ops IH]; intros s Hops Hmax Hlen; simpl.
  - eauto.
  - apply Forall_cons in Hops as [Hop Hops].
    destruct (apply_op_total s op) as [s1 Hs1]. rewrite Hs1. simpl.
    destruct (apply_op_bounded s op s1 Hop Hmax Hlen Hs1) as [Hm1 Hl1].
    destruct (IH s1 Hops) as (s' & Hrun & Hm & Hl); [lia | lia |].
    exists s'. split; [done|]. split; [congruence|]. lia.
Qed.

Lemma history_bounded_without_failures_witness :
  ∃ s', run_ops [AddPending "A1" payment; MarkValidated "A1" 8;
                 AddReceived "B2" 9 payment] (received 50) = Some s' ∧
        max_recent_transactions s' = 50 ∧
        Py.len (recent_transactions s') ≤ 50.
Proof.
  apply (history_bounded_without_failures
           [AddPending "A1" payment; MarkValidated "A1" 8; AddReceived "B2" 9 payment]
           (received 50)).
  - repeat constructor.
  - vm_compute. discriminate.
  - vm_compute. discriminate.
Defined.

(** ** Moving one record *)

(** X11.  Both marking operations take out of the pending list the first
    record with the hash and nothing else.  Either no pending record has
    the hash and both leave the store as it is; or the pending list is
    [l1 ++ tx :: l2] where [tx] has the hash and no record of [l1] has it,
    and then both leave [l1 ++ l2] pending (later records with the same
    hash stay pending, in their places), [mark_transaction_failed] puts the
    failed form of [tx] in front of the history, and
    [mark_transaction_validated] puts the validated form of [tx] in front
    and trims.  The pending list holds one record with the hash less, and
    [mark_transaction_failed] keeps every record of the store. *)
Theorem marking_moves_one_record s h idx error :
  ∃ s1 s2,
    mark_transaction_validated s h idx = Some s1 ∧
    mark_transaction_failed s h error = Some s2 ∧
    (((∀ tx, tx ∈ pending_transactions s → tx_hash tx ≠ h) ∧ s1 = s ∧ s2 = s) ∨
     (∃ l1 tx l2,
        pending_transactions s = l1 ++ tx :: l2 ∧
        (∀ y, y ∈ l1 → tx_hash y ≠ h) ∧
        tx_hash tx = h ∧
        pending_transactions s1 = l1 ++ l2 ∧
        pending_transactions s2 = l1 ++ l2 ∧
        recent_transactions s2 = mark_failed tx error :: recent_transactions s ∧
        recent_transactions s1 =
          recent_transactions
            (trim_history (set_recent s (mark_validated tx idx :: recent_transactions s))))) ∧
    (∀ h', count_hash h' (pending_transactions s1) =
           if decide (h' = h) then pred (count_hash h (pending_transactions s))
           else count_hash h' (pending_transactions s)) ∧
    hashes s2 ≡ₚ hashes s.
Proof.
  destruct (pending_cases s h) as [H | (l1 & tx & l2 & Hl & Hl1 & Hh)].
  - exists s, s.
    rewrite mark_transaction_validated_absent, mark_transaction_failed_absent by done.
    split; [done|]. split; [done|]. split; [|split; [|done]].
    + left. split; [|done]. by apply not_pending_Forall.
    + intros h'. destruct (decide (h' = h)) as [-> | ?]; [|done].
      rewrite count_hash_absent; [done|]. by apply not_pending_Forall.
  - erewrite mark_transaction_validated_found, mark_transaction_failed_found by eauto.
    do 2 eexists. split; [reflexivity|]. split; [reflexivity|].
    match goal with |- context [trim_history ?x] =>
      pose proof (trim_history_prefix x) as (Hq & _) end.
    rewrite Hq. simpl. split; [|split].
    + right. exists l1, tx, l2. split; [done|].
      split; [by apply not_pending_Forall|].
      split; [done|]. split; [done|]. split; [done|]. split; [done|].
      unfold trim_history. simpl. by destruct (_ >? _).
    + intros h'. rewrite Hl, !count_hash_app, !count_hash_cons.
      destruct (decide (h' = h)) as [-> | Hne].
      * rewrite decide_True by done.
        rewrite (count_hash_absent h l1) by (by apply not_pending_Forall).
        simpl. done.
      * rewrite decide_False by congruence. done.
    + unfold hashes. simpl. rewrite Hl.
      rewrite !fmap_app, !fmap_cons, <- !(assoc_L (++)). simpl.
      by rewrite <- Permutation_middle.
Qed.

(** With the hash pending twice, the earlier record is the one that
    moves. *)
Example marking_moves_the_first :
  let s := run_ops [AddPending "A1" payment; AddPending "B2" payment;
                    AddPending "A1" later_payment] new_store in
  let s' := s ≫= λ s, mark_transaction_failed s "A1" "tecNO_DST" in
  (λ s', (λ tx, (tx_hash tx, timestamp tx)) <$> pending_transactions s') <$> s'
    = Some [("B2", 0); ("A1", 5)] ∧
  (λ s', (λ tx, (tx_hash tx, timestamp tx)) <$> recent_transactions s') <$> s'
    = Some [("A1", 0)].
Proof. vm_compute. split; reflexivity. Qed.

(** ** The ledger cursor *)

(** X12.  [update_ledger] overwrites index, hash and transaction count with
    what it is given, whatever the cursor held, and never touches the
    reserves.  A close time of [0] is treated like an absent one: the call
    is the same as with [None], and the previous close time stays.  For any
    other close time the converted time is stored, and when the conversion
    raises, the three other fields have been overwritten already while the
    close time is the old one. *)
Theorem update_ledger_close_time s idx hash n ep f t :
  update_ledger s idx hash (Some 0) n ep f = update_ledger s idx hash None n ep f ∧
  (let r := update_ledger s idx hash None n ep f in
   r.2 = true ∧
   ledger r.1 =
     LedgerState.mk idx hash (LedgerState.close_time (ledger s)) n
       (LedgerState.reserve_base (ledger s)) (LedgerState.reserve_increment (ledger s))) ∧
  (t ≠ 0 →
   let r := update_ledger s idx hash (Some t) n ep f in
   r.2 = bool_decide (is_Some (f (ep + t))) ∧
   ledger r.1 =
     LedgerState.mk idx hash
       (match f (ep + t) with
        | Some dt => Some dt
        | None => LedgerState.close_time (ledger s)
        end) n
       (LedgerState.reserve_base (ledger s)) (LedgerState.reserve_increment (ledger s))).
Proof.
  split; [reflexivity|]. split; [by split|].
  intros Ht. unfold update_ledger.
  rewrite (proj2 (Z.eqb_neq t 0) Ht).
  destruct (f (ep + t)); simpl; split; try done.
Qed.

(** ** Amounts *)

(** X13.  Amounts add and subtract exactly, on the drop counts: subtracting
    what was added, or adding what was subtracted, gives the amount back;
    [__eq__] holds exactly for equal amounts, and of [<], [==] and [>]
    exactly one holds, with [<=] and [>=] their unions with [==]. *)
Theorem xrp_arithmetic_is_exact a b :
  xrp_sub (xrp_add a b) b = a ∧
  xrp_add (xrp_sub a b) b = a ∧
  xrp_add a b = xrp_add b a ∧
  (xrp_eq a b = true ↔ a = b) ∧
  xrp_le a b = xrp_lt a b || xrp_eq a b ∧
  xrp_ge a b = xrp_gt a b || xrp_eq a b ∧
  xrp_gt a b = xrp_lt b a ∧
  (xrp_lt a b, xrp_eq a b, xrp_gt a b) =
    match drops a ?= drops b with
    | Lt => (true, false, false)
    | Eq => (false, true, false)
    | Gt => (false, false, true)
    end.
Proof.
  destruct a as [x], b as [y].
  unfold xrp_sub, xrp_add, xrp_eq, xrp_le, xrp_lt, xrp_ge, xrp_gt, from_drops, drops.
  simpl. repeat split.
  - f_equal. lia.
  - f_equal. lia.
  - f_equal. lia.
  - intros H%Z.eqb_eq. by subst.
  - intros [= ->]. apply Z.eqb_refl.
  - destruct (Z.leb_spec x y), (Z.ltb_spec x y), (Z.eqb_spec x y); simpl; lia || done.
  - rewrite Z.geb_leb, Z.gtb_ltb.
    destruct (Z.leb_spec y x), (Z.ltb_spec y x), (Z.eqb_spec x y); simpl; lia || done.
  - apply Z.gtb_ltb.
  - rewrite Z.gtb_ltb.
    destruct (Z.compare_spec x y), (Z.ltb_spec x y), (Z.eqb_spec x y), (Z.ltb_spec y x);
      lia || done.
Qed.

Lemma list_ascii_of_string_app s1 s2 :
  String.list_ascii_of_string (s1 +:+ s2) =
    String.list_ascii_of_string s1 ++ String.list_ascii_of_string s2.
Proof. induction s1 as [|c s1 IH]; simpl; [done|]. by rewrite IH. Qed.

Lemma string_of_list_ascii_app l1 l2 :
  String.string_of_list_ascii (l1 ++ l2) =
    String.string_of_list_ascii l1 +:+ String.string_of_list_ascii l2.
Proof. induction l1 as [|c l1 IH]; simpl; [done|]. by rewrite IH. Qed.

Lemma string_app_inv_tail s1 s2 t : s1 +:+ t = s2 +:+ t → s1 = s2.
Proof.
  intros H. apply (f_equal String.list_ascii_of_string) in H.
  rewrite !list_ascii_of_string_app in H. apply app_inv_tail in H.
  apply (f_equal String.string_of_list_ascii) in H.
  by rewrite !String.string_of_list_ascii_of_string in H.
Qed.

(** X14.  [__repr__] tells amounts apart: two amounts with the same
    representation are equal, and the representation of 1_000_000 drops is
    ["XRP(drops=1000000)"]. *)
Theorem xrp_repr_determines_the_amount a b :
  (xrp_repr a = xrp_repr b ↔ a = b) ∧
  xrp_repr (from_drops 1000000) = "XRP(drops=1000000)" ∧
  xrp_repr (from_drops (-12)) = "XRP(drops=-12)".
Proof.
  split; [|split; reflexivity]. split; [|by intros ->].
  unfold xrp_repr, PyStr.of_int. intros H.
  apply (String.app_inj "XRP(drops=") in H. apply string_app_inv_tail in H.
  apply (inj pretty) in H. destruct a, b. unfold drops in H. simpl in H. by subst.
Qed.

(** ** Short forms *)

Lemma string_length_of_list l :
  String.length (String.string_of_list_ascii l) = length l.
Proof. induction l as [|c l IH]; simpl; [done|]. by rewrite IH. Qed.

Lemma list_of_string_length s :
  length (String.list_ascii_of_string s) = String.length s.
Proof. induction s as [|c s IH]; simpl; [done|]. by rewrite IH. Qed.

Lemma string_length_app s1 s2 :
  String.length (s1 +:+ s2) = (String.length s1 + String.length s2)%nat.
Proof. induction s1 as [|c s1 IH]; simpl; [done|]. by rewrite IH. Qed.

Lemma first_chars_length n s :
  String.length (PyStr.first_chars n s) = (n `min` String.length s)%nat.
Proof.
  unfold PyStr.first_chars.
  by rewrite string_length_of_list, length_take, list_of_string_length.
Qed.

Lemma last_chars_length n s :
  String.length (PyStr.last_chars n s) = (n `min` String.length s)%nat.
Proof.
  unfold PyStr.last_chars.
  rewrite string_length_of_list, length_drop, list_of_string_length. lia.
Qed.

Lemma first_last_split n m s :
  (n + m ≤ String.length s)%nat →
  ∃ middle, s = PyStr.first_chars n s +:+ middle +:+ PyStr.last_chars m s.
Proof.
  intros Hlen. unfold PyStr.first_chars, PyStr.last_chars.
  rewrite <- list_of_string_length in Hlen.
  set (l := String.list_ascii_of_string s) in *.
  exists (String.string_of_list_ascii (take (length l - n - m) (drop n l))).
  rewrite <- !string_of_list_ascii_app.
  rewrite <- (String.string_of_list_ascii_of_string s) at 1. fold l. f_equal.
  rewrite <- (take_drop n l) at 1. f_equal.
  rewrite <- (take_drop (length l - n - m) (drop n l)) at 1. f_equal.
  rewrite drop_drop. f_equal. lia.
Qed.

(** X15.  The short forms never fail, however short the string: the short
    address has [min(6, n) + 3 + min(4, n)] characters for an address of
    [n] characters and the short hash [min(8, n) + 3 + min(8, n)].  An
    address of ten or more characters is shown by its first six and last
    four characters around ["..."]; an address of at most four characters
    is shown whole on both sides. *)
Theorem short_forms acct tx :
  let n := String.length (address acct) in
  String.length (short_address acct) = ((6 `min` n) + 3 + (4 `min` n))%nat ∧
  String.length (short_hash tx) =
    ((8 `min` String.length (tx_hash tx)) + 3 + (8 `min` String.length (tx_hash tx)))%nat ∧
  ((10 ≤ n)%nat →
   ∃ head middle tail,
     address acct = head +:+ middle +:+ tail ∧
     short_address acct = head +:+ "..." +:+ tail ∧
     String.length head = 6%nat ∧ String.length tail = 4%nat) ∧
  ((n ≤ 4)%nat →
   short_address acct = address acct +:+ "..." +:+ address acct).
Proof.
  intros n. unfold short_address, short_hash.
  rewrite !string_length_app, !first_chars_length, !last_chars_length. simpl.
  split; [subst n; lia|]. split; [lia|]. split.
  - intros Hn. destruct (first_last_split 6 4 (address acct)) as [middle Hm]; [subst n; lia|].
    exists (PyStr.first_chars 6 (address acct)), middle,
           (PyStr.last_chars 4 (address acct)).
    rewrite first_chars_length, last_chars_length. fold n.
    repeat split; [done | lia | lia].
  - intros Hn. unfold PyStr.first_chars, PyStr.last_chars.
    rewrite take_ge by (rewrite list_of_string_length; subst n; lia).
    replace (length (String.list_ascii_of_string (address acct)) - 4)%nat with 0%nat
      by (rewrite list_of_string_length; subst n; lia).
    rewrite drop_0. by rewrite String.string_of_list_ascii_of_string.
Qed.

(** * Further properties of the connection supervisor *)

Section SupervisorMore.

Context {World : Type}.

Implicit Types (st : State World) (message : Message) (req : Request).

Lemma connect_loop_stopped script st :
  _should_run (connection st) = false → connect_loop script st = (Ok Returned, st).
Proof. intros H. destruct script; simpl; unfold_monad; by rewrite H. Qed.

Lemma connect_once_fails_client e stop st :
  _client (connection (_connect_once (OpenFails e stop) st).2) = _client (connection st).
Proof.
  unfold _connect_once. unfold_monad. rewrite notify_state_change_delivers. simpl.
  by destruct stop.
Qed.

(** When a pass that opened the transport is over, the transport is
    released. *)
Lemma connect_once_opened_released reads ending st :
  is_connected (connection (_connect_once (Opened reads ending) st).2) = false.
Proof.
  unfold _connect_once. unfold_monad. rewrite notify_state_change_delivers. simpl.
  rewrite notify_state_change_delivers. simpl.
  unfold _restore_subscriptions. unfold_monad. simpl.
  rewrite restore_loop_sends by reflexivity. simpl.
  match goal with |- context [read_loop reads ending ?s] =>
    destruct (read_loop_frame reads ending s) as (r & st' & -> & Ht & He & Hc) end.
  destruct r as [[]|e]; reflexivity.
Qed.

Lemma connect_loop_ends script : ∀ st,
  ∃ status st',
    connect_loop script st = (Ok status, st') ∧
    _should_run (connection st') =
      match status with Running => true | Returned => false end ∧
    (is_connected (connection st) = false → is_connected (connection st') = false).
Proof.
  induction script as [|[a sws] script IH]; intros st; simpl; unfold_monad.
  - destruct (_should_run (connection st)) eqn:Hrun; eauto 10.
  - destruct (_should_run (connection st)) eqn:Hrun; simpl; [|eauto 10].
    destruct a as [e stop | reads ending].
    + pose proof (connect_once_fails_client e stop st) as Hcl.
      destruct (connect_once_fails e stop st)
        as (st1 & Heq & _ & _ & _ & Hr1 & _).
      rewrite Heq in Hcl |- *. simpl in Hcl.
      rewrite Hr1, Hrun. destruct stop; simpl.
      { exists Returned, st1. repeat split; [done|].
        unfold is_connected. by rewrite Hcl. }
      rewrite notify_state_change_delivers. simpl.
      destruct sws; unfold disconnect; unfold_monad; simpl;
        (match goal with |- context [connect_loop script ?s] =>
           destruct (IH s) as (status & st' & Hloop & Hs & Hc)
         end);
        rewrite Hloop; exists status, st'; (split; [reflexivity|]);
        (split; [done|]); intros Hn; apply Hc; revert Hn;
        unfold is_connected; simpl; by rewrite Hcl.
    + pose proof (connect_once_opened_released reads ending st) as Hrel.
      destruct (_connect_once (Opened reads ending) st) as [r st1]. simpl in Hrel.
      destruct r as [[]|e]; simpl.
      { destruct (IH st1) as (status & st' & -> & Hs & Hc). eauto 10. }
      destruct (_should_run (connection st1)) eqn:Hrun1; simpl; [|eauto 10].
      rewrite notify_state_change_delivers. simpl.
      destruct sws; unfold disconnect; unfold_monad; simpl;
        (match goal with |- context [connect_loop script ?s] =>
           destruct (IH s) as (status & st' & Hloop & Hs & Hc)
         end);
        rewrite Hloop; exists status, st'; (split; [reflexivity|]);
        (split; [done|]); intros _; apply Hc; revert Hrel;
        unfold is_connected; simpl; done.
Qed.

(** X16.  [connect] never raises, whatever the transport does: it either is
    still looping when the script ends, with [_should_run] set, or has
    returned, and then [_should_run] is cleared and the state is
    [DISCONNECTED].  It never changes the tracker, the callbacks or the
    replay list. *)
Theorem connect_absorbs_every_failure script st :
  ∃ status st',
    connect script st = (Ok status, st') ∧
    match status with
    | Running => _should_run (connection st') = true
    | Returned => _should_run (connection st') = false ∧
                  _state (connection st') = DISCONNECTED
    end ∧
    tracker st' = tracker st ∧
    _message_callbacks (connection st') = _message_callbacks (connection st) ∧
    _pending_subscriptions (connection st') = _pending_subscriptions (connection st).
Proof.
  unfold connect. unfold_monad.
  match goal with |- context [connect_loop script ?s] =>
    destruct (connect_loop_ends script s) as (status & st1 & Hloop & Hs & _);
    destruct (connect_loop_trace script s)
      as (status' & st1' & Hloop' & Ht & (_ & _ & Hcb & Hp) & _)
  end.
  rewrite Hloop in Hloop'. injection Hloop' as <- <-. rewrite Hloop.
  destruct status; simpl.
  - exists Running, st1. done.
  - rewrite notify_state_change_delivers. simpl.
    eexists Returned, _. split; [reflexivity|]. simpl. done.
Qed.

(** X17.  When the supervisor starts without an open transport, none is
    open whenever [connect] is between two passes or has returned; [send]
    and [request] then raise "Not connected". *)
Theorem no_transport_outside_a_pass script st req track reply :
  is_connected (connection st) = false →
  let st' := (connect script st).2 in
  is_connected (connection st') = false ∧
  send req track st' = (Raise NotConnected, st') ∧
  request req reply st' = (Raise NotConnected, st').
Proof.
  intros Hc st'.
  assert (Hst' : is_connected (connection st') = false).
  { subst st'. unfold connect. unfold_monad.
    match goal with |- context [connect_loop script ?s] =>
      destruct (connect_loop_ends script s) as (status & st1 & -> & _ & Hrel) end.
    specialize (Hrel Hc).
    destruct status; simpl; [done|].
    rewrite notify_state_change_delivers. simpl. exact Hrel. }
  split; [done|]. split.
  - by apply send_not_connected.
  - by apply request_not_connected.
Qed.

(** A stop request during the read loop clears [_should_run] for good and
    has no effect on the outside. *)
Lemma read_loop_stops reads ending : ∀ st,
  StopCalled ∈ reads →
  ∃ r st', read_loop reads ending st = (r, st') ∧
           _should_run (connection st') = false ∧ effects st' = effects st.
Proof.
  induction reads as [|[m|] reads IH]; intros st Hin.
  - inversion Hin.
  - apply elem_of_cons in Hin as [? | Hin]; [done|].
    simpl. unfold_monad.
    destruct (_should_run (connection st)) eqn:Hrun; simpl; [|eauto 10].
    rewrite dispatch_message_delivers.
    match goal with |- context [read_loop reads ending ?s] =>
      destruct (IH s Hin) as (r & st' & -> & Hr & He) end.
    eauto 10.
  - simpl. unfold disconnect. unfold_monad.
    match goal with |- context [read_loop reads ending ?s] =>
      destruct (read_loop_frame reads ending s) as (r & st' & -> & _ & He & Hc) end.
    exists r, st'. split; [done|]. split; [|done].
    destruct Hc as [-> | ->]; reflexivity.
Qed.

(** A pass during which [disconnect()] is called ends with [_should_run]
    cleared and makes no sleep. *)
Lemma connect_once_stops a st :
  attempt_stops a →
  ∃ r st', _connect_once a st = (r, st') ∧
           _should_run (connection st') = false ∧
           sleeps (effects st') = sleeps (effects st).
Proof.
  intros Hstop. destruct a as [e stop | reads ending]; simpl in Hstop.
  - subst stop. destruct (connect_once_fails e true st)
      as (st1 & -> & _ & _ & _ & Hr & He).
    exists (Raise e), st1. rewrite He, sleeps_app. simpl. by rewrite app_nil_r.
  - unfold _connect_once. unfold_monad. rewrite notify_state_change_delivers. simpl.
    rewrite notify_state_change_delivers. simpl.
    unfold _restore_subscriptions. unfold_monad. simpl.
    rewrite restore_loop_sends by reflexivity. simpl.
    match goal with |- context [read_loop reads ending ?s] =>
      destruct (read_loop_stops reads ending s Hstop) as (r & st' & -> & Hr & He) end.
    simpl in He.
    destruct r as [[]|e]; simpl; do 2 eexists; (split; [reflexivity|]); simpl;
      rewrite Hr, He, !sleeps_app, sleeps_sends; simpl; by rewrite !app_nil_r.
Qed.

(** X18.  A call of [disconnect()] during a pass, before the failure of
    that pass is caught, ends the loop with that pass: [connect] returns
    with state [DISCONNECTED], without sleeping and without a further
    attempt, whatever the environment would have done next. *)
Theorem stop_ends_the_loop_at_once a sws rest st :
  attempt_stops a →
  let round := {| attempt := a; stop_while_sleeping := sws |} in
  ∃ st', connect (round :: rest) st = (Ok Returned, st') ∧
         connect [round] st = (Ok Returned, st') ∧
         _state (connection st') = DISCONNECTED ∧
         sleeps (effects st') = sleeps (effects st).
Proof.
  intros Hstop round.
  set (st0 := {| connection := set_delay 1 (set_should_run true (connection st));
                 tracker := tracker st; world := world st; effects := effects st |}).
  assert (Hconnect : ∀ script, connect script st =
            (status ← connect_loop script;
             match status with
             | Running => mret Running
             | Returned =>
                 update_connection (set_state DISCONNECTED);;
                 _notify_state_change;; mret Returned
             end) st0) by reflexivity.
  assert (Hany : ∀ rest, ∃ st1,
            connect_loop (round :: rest) st0 = (Ok Returned, st1) ∧
            st1 = (_connect_once a st0).2 ∧
            sleeps (effects st1) = sleeps (effects st)).
  { intros rest'. simpl. unfold mbind, M_bind, bind, get_connection. simpl.
    destruct (connect_once_stops a st0 Hstop) as (r & st1 & Hr1 & Hr & Hs).
    unfold try_except, mbind, M_bind, bind. rewrite Hr1.
    destruct r as [[]|e]; simpl.
    - unfold mret, M_ret, ret. rewrite connect_loop_stopped by done. eauto.
    - unfold get_connection. simpl. rewrite Hr. simpl. eauto. }
  destruct (Hany rest) as (st1 & Hl1 & Hst1 & Hs1).
  destruct (Hany []) as (st2 & Hl2 & Hst2 & _).
  assert (st2 = st1) as -> by congruence.
  rewrite !Hconnect. unfold mbind, M_bind, bind. rewrite Hl1, Hl2.
  unfold update_connection. simpl.
  rewrite notify_state_change_delivers. simpl.
  eexists. split; [reflexivity|]. split; [reflexivity|]. simpl. done.
Qed.

Lemma connect_loop_stop_free script : ∀ st,
  Forall stop_free script →
  _should_run (connection st) = true →
  ∃ st', connect_loop script st = (Ok Running, st') ∧
         _should_run (connection st') = true.
Proof.
  induction script as [|r script IH]; intros st Hfree Hrun.
  - exists st. by rewrite connect_loop_running.
  - apply Forall_cons in Hfree as [[[e ->] | (frames & ending & ->)] Hfree].
    + destruct (connect_loop_failed_round e script st Hrun) as (st1 & -> & Hr1 & _).
      by apply IH.
    + destruct (connect_loop_opened_round frames ending script st Hrun)
        as (st1 & -> & Hr1 & _).
      by apply IH.
Qed.

(** X19.  As long as nobody calls [disconnect()], [connect] does not
    return: after any sequence of passes that fail to open, or open and
    then fail or close, it is still looping. *)
Theorem connect_keeps_trying script st :
  Forall stop_free script →
  ∃ st', connect script st = (Ok Running, st') ∧
         _should_run (connection st') = true.
Proof.
  intros Hfree. unfold connect. unfold_monad.
  match goal with |- context [connect_loop script ?s] =>
    destruct (connect_loop_stop_free script s Hfree eq_refl) as (st' & -> & Hr) end.
  eauto.
Qed.

(** X20.  A pass that opens the transport tells the callbacks [CONNECTING],
    then [CONNECTED], then every frame in the order received; a pass that
    cannot open tells them [CONNECTING] only.  Either way no transport is
    open when the pass is over. *)
Theorem pass_notifies_in_order frames ending e st :
  _should_run (connection st) = true →
  let callbacks := _message_callbacks (connection st) in
  let opened := (_connect_once (Opened (Recv <$> frames) ending) st).2 in
  let failed := (_connect_once (OpenFails e false) st).2 in
  world opened =
    foldl (delivered callbacks)
          (delivered callbacks
             (delivered callbacks (world st) (state_message CONNECTING))
             (state_message CONNECTED))
          frames ∧
  world failed = delivered callbacks (world st) (state_message CONNECTING) ∧
  is_connected (connection opened) = false ∧
  _client (connection failed) = _client (connection st).
Proof.
  intros Hrun callbacks opened failed.
  split; [|split; [|split]].
  - subst opened. unfold _connect_once. unfold_monad.
    rewrite notify_state_change_delivers. simpl.
    rewrite notify_state_change_delivers. simpl.
    unfold _restore_subscriptions. unfold_monad. simpl.
    rewrite restore_loop_sends by reflexivity. simpl.
    rewrite read_loop_delivers by done. simpl.
    by destruct ending.
  - subst failed. unfold _connect_once. unfold_monad.
    rewrite notify_state_change_delivers. reflexivity.
  - apply connect_once_opened_released.
  - apply connect_once_fails_client.
Qed.

Lemma restore_loop_offline requests st :
  is_connected (connection st) = false → restore_loop requests st = (Ok tt, st).
Proof.
  intros Hc. induction requests as [|r requests IH]; simpl; unfold_monad.
  - reflexivity.
  - unfold is_connected in Hc.
    destruct (_client (connection st)) as [client|]; [rewrite Hc|]; exact IH.
Qed.

(** X21.  Without an open transport [_restore_subscriptions] attempts no
    send: it returns normally and leaves the state, the log of effects
    included, as it is.  On a transport that is open, the state after
    [_restore_subscriptions] whose sends go out differs from the state
    before only by the sends of the whole replay list, in the order in
    which the requests were tracked. *)
Theorem restore_sends_the_replay_list st :
  (is_connected (connection st) = false →
   _restore_subscriptions st = (Ok tt, st)) ∧
  (is_connected (connection st) = true →
   (_restore_subscriptions st).2 =
     {| connection := connection st; tracker := tracker st; world := world st;
        effects := effects st ++ (ESend <$> _pending_subscriptions (connection st)) |}).
Proof.
  unfold _restore_subscriptions. unfold_monad. split; intros Hc.
  - by apply restore_loop_offline.
  - by rewrite restore_loop_sends.
Qed.

End SupervisorMore.

Lemma no_transport_outside_a_pass_witness :
  let st' := (connect [failed_round (TransportError "refused");
                       opened_round [] (Raises (TransportError "reset"))] fresh).2 in
  is_connected (connection st') = false ∧
  send (Subscribe (Some [LEDGER]) None) true st' = (Raise NotConnected, st') ∧
  request (Subscribe (Some [LEDGER]) None) {| result := ∅ |} st' = (Raise NotConnected, st').
Proof.
  apply (no_transport_outside_a_pass
           [failed_round (TransportError "refused");
            opened_round [] (Raises (TransportError "reset"))] fresh).
  reflexivity.
Defined.

Lemma stop_ends_the_loop_at_once_witness :
  let round := {| attempt := Opened [Recv ∅; StopCalled; Recv ∅] Exhausted;
                  stop_while_sleeping := false |} in
  ∃ st', connect [round; failed_round (TransportError "refused")] journalled
           = (Ok Returned, st') ∧
         connect [round] journalled = (Ok Returned, st') ∧
         _state (connection st') = DISCONNECTED ∧
         sleeps (effects st') = sleeps (effects journalled).
Proof.
  apply (stop_ends_the_loop_at_once
           (Opened [Recv ∅; StopCalled; Recv ∅] Exhausted) false
           [failed_round (TransportError "refused")] journalled).
  simpl. right. left.
Defined.

Lemma connect_keeps_trying_witness :
  ∃ st', connect [failed_round (TransportError "refused");
                  opened_round [∅] Exhausted;
                  opened_round [] (Raises (TransportError "reset"))] fresh
           = (Ok Running, st') ∧
         _should_run (connection st') = true.
Proof.
  apply (connect_keeps_trying
           [failed_round (TransportError "refused"); opened_round [∅] Exhausted;
            opened_round [] (Raises (TransportError "reset"))] fresh).
  apply Forall_cons. split; [left; by eexists|].
  apply Forall_cons. split; [right; by exists [∅], Exhausted|].
  apply Forall_cons. split; [right; by exists [], (Raises (TransportError "reset"))|].
  constructor.
Defined.

Lemma pass_notifies_in_order_witness :
  world (_connect_once (Opened [Recv ∅] Exhausted) journalled).2
    = [1; 2; 3; 1; 2; 3; 1; 2; 3]%nat ∧
  world (_connect_once (OpenFails (TransportError "refused") false) journalled).2
    = [1; 2; 3]%nat.
Proof.
  destruct (pass_notifies_in_order [∅] Exhausted (TransportError "refused") journalled)
    as (H1 & H2 & _); [reflexivity|].
  split; [etransitivity; [exact H1|] | etransitivity; [exact H2|]]; reflexivity.
Defined.

(** * Further properties of the subscription tracker *)

Section TrackerMore.

Context {World : Type}.

Implicit Types (st : State World) (req : Request).

Local Abbreviation pending st := (_pending_subscriptions (connection st)).

Lemma filter_new_nil (S : gset string) (addresses : list string) :
  filter (λ addr, addr ∉ S) addresses = [] ↔ Forall (λ a, a ∈ S) addresses.
Proof.
  split.
  - intros H. apply Forall_forall. intros a Ha.
    destruct (decide (a ∈ S)) as [|Hn]; [done|].
    assert (a ∈ filter (λ addr, addr ∉ S) addresses) as Hin
      by (by apply list_elem_of_filter).
    rewrite H in Hin. inversion Hin.
  - intros H. apply filter_known. by apply Forall_forall.
Qed.

Lemma tracker_eta (t : SubscriptionManager) :
  {| _subscribed_streams := _subscribed_streams t;
     _subscribed_accounts := _subscribed_accounts t |} = t.
Proof. by destruct t. Qed.

(** What the calls of the tracker do without an open transport. *)
Lemma subscribe_stream_offline st stream :
  is_connected (connection st) = false →
  _subscribe_stream stream st =
    (if decide (stream ∈ _subscribed_streams (tracker st))
     then Ok tt else Raise NotConnected, st).
Proof.
  intros Hc. unfold _subscribe_stream. unfold mbind, M_bind, bind, get_tracker.
  destruct (decide _); [done|]. by rewrite send_not_connected.
Qed.

Lemma unsubscribe_stream_offline st stream :
  is_connected (connection st) = false →
  unsubscribe_stream stream st =
    (if decide (stream ∈ _subscribed_streams (tracker st))
     then Raise NotConnected else Ok tt, st).
Proof.
  intros Hc. unfold unsubscribe_stream. unfold mbind, M_bind, bind, get_tracker.
  destruct (decide (stream ∉ _)) as [Hn | Hin].
  - by rewrite decide_False.
  - apply dec_stable in Hin. rewrite decide_True by done.
    by rewrite send_not_connected.
Qed.

Lemma subscribe_accounts_offline st addresses :
  is_connected (connection st) = false →
  subscribe_accounts addresses st =
    (if decide (Forall (λ a, a ∈ _subscribed_accounts (tracker st)) addresses)
     then Ok tt else Raise NotConnected, st).
Proof.
  intros Hc. unfold subscribe_accounts. unfold mbind, M_bind, bind, get_tracker.
  destruct (decide (filter _ _ = [])) as [Hnil | Hnew].
  - rewrite decide_True; [done|]. by apply filter_new_nil.
  - rewrite decide_False; [by rewrite send_not_connected|].
    intros H. by apply Hnew, filter_new_nil.
Qed.

Lemma unsubscribe_account_offline st addr :
  is_connected (connection st) = false →
  unsubscribe_account addr st =
    (if decide (addr ∈ _subscribed_accounts (tracker st))
     then Raise NotConnected else Ok tt, st).
Proof.
  intros Hc. unfold unsubscribe_account. unfold mbind, M_bind, bind, get_tracker.
  destruct (decide (addr ∉ _)) as [Hn | Hin].
  - by rewrite decide_False.
  - apply dec_stable in Hin. rewrite decide_True by done.
    by rewrite send_not_connected.
Qed.

Lemma unsubscribe_all_offline st :
  is_connected (connection st) = false →
  unsubscribe_all st =
    if decide (_subscribed_streams (tracker st) = ∅ ∧
               _subscribed_accounts (tracker st) = ∅)
    then (Ok tt, {| connection := set_subscriptions [] (connection st);
                    tracker := tracker st; world := world st; effects := effects st |})
    else (Raise NotConnected, st).
Proof.
  intros Hc. unfold unsubscribe_all.
  unfold mbind, M_bind, bind, get_tracker, clear_subscriptions, update_connection.
  destruct (decide (_subscribed_streams (tracker st) ≠ ∅)) as [Hs | Hs].
  - rewrite send_not_connected by done. rewrite decide_False; [done|]. by intros [? _].
  - apply dec_stable in Hs. unfold mret, M_ret, ret.
    destruct (decide (_subscribed_accounts (tracker st) ≠ ∅)) as [Ha | Ha].
    + rewrite send_not_connected by done. rewrite decide_False; [done|]. by intros [_ ?].
    + apply dec_stable in Ha. by rewrite decide_True.
Qed.

(** X22.  Without an open transport a call of the tracker leaves no trace:
    it returns at once when there is nothing to send (the stream or every
    address is subscribed already, or the entry to unsubscribe is not
    subscribed) and raises "Not connected" otherwise, and in both cases
    tracker, replay list and log of effects are as before, so that the call
    can be repeated later. *)
Theorem calls_without_transport_leave_no_trace st stream addr addresses :
  is_connected (connection st) = false →
  _subscribe_stream stream st =
    (if decide (stream ∈ _subscribed_streams (tracker st))
     then Ok tt else Raise NotConnected, st) ∧
  subscribe_accounts addresses st =
    (if decide (Forall (λ a, a ∈ _subscribed_accounts (tracker st)) addresses)
     then Ok tt else Raise NotConnected, st) ∧
  unsubscribe_stream stream st =
    (if decide (stream ∈ _subscribed_streams (tracker st))
     then Raise NotConnected else Ok tt, st) ∧
  unsubscribe_account addr st =
    (if decide (addr ∈ _subscribed_accounts (tracker st))
     then Raise NotConnected else Ok tt, st).
Proof.
  intros Hc. split; [by apply subscribe_stream_offline|].
  split; [by apply subscribe_accounts_offline|].
  split; [by apply unsubscribe_stream_offline | by apply unsubscribe_account_offline].
Qed.

Lemma unsubscribe_all_online st :
  is_connected (connection st) = true →
  unsubscribe_all st =
    (Ok tt,
     {| connection := set_subscriptions [] (connection st);
        tracker := new_tracker; world := world st;
        effects := effects st ++ (ESend <$> unsubscribe_requests (tracker st)) |}).
Proof.
  intros Hc. unfold unsubscribe_all, unsubscribe_requests, new_tracker.
  unfold mbind, M_bind, bind, get_tracker, clear_subscriptions, update_connection,
    update_tracker.
  destruct (decide (_subscribed_streams (tracker st) ≠ ∅)) as [Hs | Hs]; simpl.
  - rewrite send_connected by done. simpl.
    destruct (decide (_subscribed_accounts (tracker st) ≠ ∅)) as [Ha | Ha]; simpl.
    + rewrite send_connected by done. simpl. by rewrite <- (assoc_L (++)).
    + apply dec_stable in Ha. unfold mret, M_ret, ret. by rewrite Ha.
  - apply dec_stable in Hs. unfold mret, M_ret, ret.
    destruct (decide (_subscribed_accounts (tracker st) ≠ ∅)) as [Ha | Ha]; simpl.
    + rewrite send_connected by done. simpl. by rewrite Hs.
    + apply dec_stable in Ha. rewrite app_nil_r.
      rewrite <- (tracker_eta (tracker st)) at 1. by rewrite Hs, Ha.
Qed.

(** X23.  On an open transport [unsubscribe_all] empties both sets of the
    tracker and the replay list, and sends one unsubscribe request for the
    streams and one for the accounts, each only if that set is not empty.
    Without an open transport it raises "Not connected" and changes nothing
    if anything is subscribed; if nothing is, it returns and only empties
    the replay list. *)
Theorem unsubscribe_all_result st :
  unsubscribe_all st =
    if is_connected (connection st) then
      (Ok tt,
       {| connection := set_subscriptions [] (connection st);
          tracker := new_tracker; world := world st;
          effects := effects st ++ (ESend <$> unsubscribe_requests (tracker st)) |})
    else if decide (_subscribed_streams (tracker st) = ∅ ∧
                    _subscribed_accounts (tracker st) = ∅) then
      (Ok tt,
       {| connection := set_subscriptions [] (connection st);
          tracker := tracker st; world := world st; effects := effects st |})
    else (Raise NotConnected, st).
Proof.
  destruct (is_connected (connection st)) eqn:Hc.
  - by apply unsubscribe_all_online.
  - by apply unsubscribe_all_offline.
Qed.

(** X24.  On an open transport, after [subscribe_accounts(addresses)] every
    address of the list is subscribed.  At most one request goes out: it
    lists the addresses that were not subscribed, in the order and as often
    as the list has them, and is tracked for replay; when all were
    subscribed nothing is sent. *)
Theorem subscribe_accounts_result st addresses :
  is_connected (connection st) = true →
  let new_addresses :=
    filter (λ addr, addr ∉ _subscribed_accounts (tracker st)) addresses in
  let requests :=
    if decide (new_addresses = []) then [] else [Subscribe None (Some new_addresses)] in
  ∃ st', subscribe_accounts addresses st = (Ok tt, st') ∧
         _subscribed_accounts (tracker st') =
           _subscribed_accounts (tracker st) ∪ list_to_set addresses ∧
         _subscribed_streams (tracker st') = _subscribed_streams (tracker st) ∧
         effects st' = effects st ++ (ESend <$> requests) ∧
         pending st' = pending st ++ requests.
Proof.
  intros Hc new_addresses requests.
  assert (Hset : _subscribed_accounts (tracker st) ∪ list_to_set new_addresses =
                 _subscribed_accounts (tracker st) ∪ list_to_set addresses).
  { apply set_eq. intros a. subst new_addresses.
    rewrite !elem_of_union, !elem_of_list_to_set, list_elem_of_filter.
    destruct (decide (a ∈ _subscribed_accounts (tracker st))); tauto. }
  subst requests. destruct (decide (new_addresses = [])) as [Hnil | Hnew].
  - exists st. rewrite subscribe_accounts_known.
    + rewrite <- Hset, Hnil, !app_nil_r. simpl.
      by rewrite (right_id_L ∅ (∪)).
    + apply Forall_forall. by apply filter_new_nil.
  - rewrite subscribe_accounts_sends by done.
    eexists. split; [reflexivity|]. simpl. by rewrite <- Hset.
Qed.

End TrackerMore.

Lemma calls_without_transport_leave_no_trace_witness :
  _subscribe_stream TRANSACTIONS offline = (Raise NotConnected, offline) ∧
  subscribe_accounts ["rABC"; "rXYZ"] offline = (Raise NotConnected, offline) ∧
  unsubscribe_stream TRANSACTIONS offline = (Ok tt, offline) ∧
  unsubscribe_account "rABC" offline = (Raise NotConnected, offline).
Proof.
  destruct (calls_without_transport_leave_no_trace offline TRANSACTIONS "rABC"
              ["rABC"; "rXYZ"]) as (H1 & H2 & H3 & H4); [reflexivity|].
  rewrite H1, H2, H3, H4. by vm_compute.
Defined.

Lemma subscribe_accounts_result_witness :
  sent (effects (subscribe_accounts ["rXYZ"; "rABC"; "rXYZ"] online).2)
    = [Subscribe None (Some ["rXYZ"; "rXYZ"])].
Proof.
  destruct (subscribe_accounts_result online ["rXYZ"; "rABC"; "rXYZ"])
    as (st' & Hrun & _ & _ & He & _); [reflexivity|].
  rewrite Hrun. simpl. rewrite He. by vm_compute.
Defined.

(** * Replay covers what is subscribed *)

Section Coverage.

Context {World : Type}.

Implicit Types (st : State World) (req : Request).

Local Abbreviation pending st := (_pending_subscriptions (connection st)).

Lemma covered_weaken st st' :
  covered st →
  _subscribed_streams (tracker st') ⊆ _subscribed_streams (tracker st) →
  _subscribed_accounts (tracker st') ⊆ _subscribed_accounts (tracker st) →
  (∀ r, r ∈ pending st → r ∈ pending st') →
  covered st'.
Proof.
  intros [Hs Ha] Hss Has Hp. split.
  - intros x Hx. destruct (Hs x (Hss x Hx)) as (l & Hl & Hr). eauto.
  - intros x Hx. destruct (Ha x (Has x Hx)) as (l & Hl & Hr). eauto.
Qed.

Lemma covered_nothing st :
  _subscribed_streams (tracker st) = ∅ →
  _subscribed_accounts (tracker st) = ∅ →
  covered st.
Proof.
  intros Hs Ha. split; intros x Hx; [rewrite Hs in Hx | rewrite Ha in Hx];
    by apply not_elem_of_empty in Hx.
Qed.

Lemma unsubscribe_stream_unknown st stream :
  stream ∉ _subscribed_streams (tracker st) →
  unsubscribe_stream stream st = (Ok tt, st).
Proof.
  intros H. unfold unsubscribe_stream. unfold mbind, M_bind, bind, get_tracker.
  by rewrite decide_True.
Qed.

Lemma unsubscribe_account_unknown st addr :
  addr ∉ _subscribed_accounts (tracker st) →
  unsubscribe_account addr st = (Ok tt, st).
Proof.
  intros H. unfold unsubscribe_account. unfold mbind, M_bind, bind, get_tracker.
  by rewrite decide_True.
Qed.

Lemma run_client_op_covered op st : covered st → covered (run_client_op op st).
Proof.
  intros Hcov. pose proof Hcov as [Hs Ha].
  destruct (is_connected (connection st)) eqn:Hc;
    destruct op as [stream | stream | addresses | addr | script]; simpl.
  - destruct (decide (stream ∈ _subscribed_streams (tracker st))) as [Hin | Hn].
    + by rewrite subscribe_stream_known.
    + rewrite subscribe_stream_sends by done. split; simpl.
      * intros x [Hx | Hx%elem_of_singleton]%elem_of_union.
        -- destruct (Hs x Hx) as (l & Hl & Hr). exists l. split; [done|].
           apply elem_of_app. by left.
        -- subst x. exists [stream]. split; [by left|].
           apply elem_of_app. right. by left.
      * intros x Hx. destruct (Ha x Hx) as (l & Hl & Hr). exists l. split; [done|].
        apply elem_of_app. by left.
  - destruct (decide (stream ∈ _subscribed_streams (tracker st))) as [Hin | Hn].
    + rewrite unsubscribe_stream_sends by done.
      apply (covered_weaken st); simpl; [done | | done | done].
      intros x [Hx _]%elem_of_difference. done.
    + by rewrite unsubscribe_stream_unknown.
  - destruct (decide (filter (λ addr, addr ∉ _subscribed_accounts (tracker st)) addresses
                      = [])) as [Hnil | Hnew].
    + rewrite subscribe_accounts_known; [done|].
      apply Forall_forall. by apply filter_new_nil.
    + rewrite subscribe_accounts_sends by done. split; simpl.
      * intros x Hx. destruct (Hs x Hx) as (l & Hl & Hr). exists l. split; [done|].
        apply elem_of_app. by left.
      * intros x [Hx | Hx%elem_of_list_to_set]%elem_of_union.
        -- destruct (Ha x Hx) as (l & Hl & Hr). exists l. split; [done|].
           apply elem_of_app. by left.
        -- eexists. split; [exact Hx|]. apply elem_of_app. right. by left.
  - destruct (decide (addr ∈ _subscribed_accounts (tracker st))) as [Hin | Hn].
    + rewrite unsubscribe_account_sends by done.
      apply (covered_weaken st); simpl; [done | done | | done].
      intros x [Hx _]%elem_of_difference. done.
    + by rewrite unsubscribe_account_unknown.
  - destruct (connect_loop_trace script st)
      as (status & st' & -> & Ht & (_ & _ & _ & Hp) & _).
    simpl. apply (covered_weaken st); rewrite ?Ht, ?Hp; done.
  - rewrite subscribe_stream_offline by done. done.
  - rewrite unsubscribe_stream_offline by done. done.
  - rewrite subscribe_accounts_offline by done. done.
  - rewrite unsubscribe_account_offline by done. done.
  - destruct (connect_loop_trace script st)
      as (status & st' & -> & Ht & (_ & _ & _ & Hp) & _).
    simpl. apply (covered_weaken st); rewrite ?Ht, ?Hp; done.
Qed.

Lemma run_tracker_call_covered c st : covered st → covered (run_tracker_call c st).
Proof.
  intros Hcov. destruct c as [op|]; simpl.
  - by apply run_client_op_covered.
  - destruct (is_connected (connection st)) eqn:Hc.
    + rewrite unsubscribe_all_online by done. by apply covered_nothing.
    + rewrite unsubscribe_all_offline by done.
      destruct (decide _) as [[Hs Ha] | _]; [|done]. by apply covered_nothing.
Qed.

Lemma run_tracker_calls_covered cs : ∀ st,
  covered st → covered (run_tracker_calls cs st).
Proof.
  unfold run_tracker_calls. induction cs as [|c cs IH]; intros st Hcov; simpl.
  - done.
  - by apply IH, run_tracker_call_covered.
Qed.

(** X25.  Whatever the tracker holds as subscribed is on the replay list,
    and stays so through any calls of the tracker, [unsubscribe_all]
    included, with or without an open transport, and through any passes of
    the supervisor loop.  Hence the next pass that opens a transport sends,
    for every stream and every account subscribed at that moment, a
    subscribe request that names it, without any call of the tracker. *)
Theorem reconnect_restores_what_is_subscribed cs reads ending st :
  covered st →
  let st1 := run_tracker_calls cs st in
  let st2 := (_connect_once (Opened reads ending) st1).2 in
  let resent := sent (drop (length (effects st1)) (effects st2)) in
  covered st1 ∧
  tracker st2 = tracker st1 ∧
  resent = pending st1 ∧
  (∀ stream, stream ∈ _subscribed_streams (tracker st2) →
     ∃ l, stream ∈ l ∧ Subscribe (Some l) None ∈ resent) ∧
  (∀ addr, addr ∈ _subscribed_accounts (tracker st2) →
     ∃ l, addr ∈ l ∧ Subscribe None (Some l) ∈ resent).
Proof.
  intros Hcov st1 st2 resent.
  assert (Hcov1 : covered st1) by (by apply run_tracker_calls_covered).
  assert (Ht : tracker st2 = tracker st1).
  { subst st2. destruct (connect_once_opened reads ending st1)
      as (r & st' & -> & Ht & _). done. }
  assert (Hre : resent = pending st1).
  { subst resent st2. rewrite reconnect_replays, drop_app_length. simpl.
    apply sent_sends. }
  split; [done|]. split; [done|]. split; [done|].
  rewrite Ht, Hre. exact Hcov1.
Qed.

(** X26.  The replay list is not a set: on an open transport, a stream
    that is subscribed, unsubscribed and subscribed again has its subscribe
    request on the replay list twice, and the next pass that opens a
    transport sends it twice. *)
Theorem resubscribing_duplicates_the_replay_entry st stream reads ending :
  is_connected (connection st) = true →
  stream ∉ _subscribed_streams (tracker st) →
  let sub := Subscribe (Some [stream]) None in
  let st1 := (resubscribe stream st).2 in
  stream ∈ _subscribed_streams (tracker st1) ∧
  pending st1 = pending st ++ [sub; sub] ∧
  sent (drop (length (effects st1))
             (effects (_connect_once (Opened reads ending) st1).2))
    = pending st ++ [sub; sub].
Proof.
  intros Hc Hs sub st1.
  assert (Hst1 : st1 =
    {| connection := set_subscriptions (pending st ++ [sub; sub]) (connection st);
       tracker := {| _subscribed_streams :=
                       (_subscribed_streams (tracker st) ∪ {[stream]}) ∖ {[stream]}
                       ∪ {[stream]};
                     _subscribed_accounts := _subscribed_accounts (tracker st) |};
       world := world st;
       effects := effects st ++ [ESend sub; ESend (Unsubscribe (Some [stream]) None);
                                 ESend sub] |}).
  { subst st1. unfold resubscribe. unfold mbind, M_bind, bind.
    rewrite subscribe_stream_sends by done.
    rewrite unsubscribe_stream_sends; [|done|].
    2:{ simpl. apply elem_of_union. right. by apply elem_of_singleton. }
    rewrite subscribe_stream_sends; [|done|].
    2:{ simpl. intros [_ Hn]%elem_of_difference. apply Hn. by apply elem_of_singleton. }
    simpl. rewrite <- !(assoc_L (++)). reflexivity. }
  split; [|split].
  - rewrite Hst1. simpl. apply elem_of_union. right. by apply elem_of_singleton.
  - by rewrite Hst1.
  - rewrite reconnect_replays, drop_app_length. simpl. rewrite sent_sends.
    by rewrite Hst1.
Qed.

End Coverage.

Lemma online_covered : covered online.
Proof.
  split; intros x Hx.
  - exists [LEDGER]. change (x ∈ ({[LEDGER]} : gset StreamParameter)) in Hx.
    apply elem_of_singleton in Hx as ->. split; [by left|]. by left.
  - exists ["rABC"]. change (x ∈ ({["rABC"]} : gset string)) in Hx.
    apply elem_of_singleton in Hx as ->. split; [by left|]. right. by left.
Qed.

Lemma reconnect_restores_what_is_subscribed_witness :
  let st1 := run_tracker_calls
               [Call (SubscribeAccounts ["rXYZ"; "rUVW"]);
                Call (UnsubscribeAccount "rXYZ");
                Call (Supervise [opened_round [] (Raises (TransportError "reset"))]);
                Call (SubscribeStream TRANSACTIONS)] online in
  let st2 := (_connect_once (Opened [] Exhausted) st1).2 in
  sent (drop (length (effects st1)) (effects st2)) =
    [Subscribe (Some [LEDGER]) None; Subscribe None (Some ["rABC"]);
     Subscribe None (Some ["rXYZ"; "rUVW"])] ∧
  covered st1.
Proof.
  intros st1 st2.
  destruct (reconnect_restores_what_is_subscribed
              [Call (SubscribeAccounts ["rXYZ"; "rUVW"]);
               Call (UnsubscribeAccount "rXYZ");
               Call (Supervise [opened_round [] (Raises (TransportError "reset"))]);
               Call (SubscribeStream TRANSACTIONS)] [] Exhausted online online_covered)
    as (Hcov & _ & Hre & _).
  split; [|exact Hcov]. etransitivity; [exact Hre|]. by vm_compute.
Defined.

Lemma resubscribing_duplicates_the_replay_entry_witness :
  _pending_subscriptions (connection (resubscribe TRANSACTIONS online).2) =
    [Subscribe (Some [LEDGER]) None; Subscribe None (Some ["rABC"]);
     Subscribe (Some [TRANSACTIONS]) None; Subscribe (Some [TRANSACTIONS]) None].
Proof.
  destruct (resubscribing_duplicates_the_replay_entry online TRANSACTIONS [] Exhausted)
    as (_ & H & _).
  - reflexivity.
  - by vm_compute.
  - etransitivity; [exact H|]. reflexivity.
Defined.
